(** * Trading-signal and backtest engine of [app.js]

    A shallow embedding of the strategy code of [src/app.js]
    ([sma], [generateSmaSignals], [simulatePortfolio],
    [computeEquityCurve], [pctReturns], [cagr], [sharpe]) together with
    the properties its specification states about it.

    JavaScript numbers are modelled twice.

    - [num] is the model of the general theorems: a rational for every
      finite value plus the three IEEE special values [Infinity],
      [-Infinity] and [NaN].  Division by zero, [NaN] propagation,
      comparison with [NaN] and truthiness follow JavaScript; arithmetic
      on finite values is exact, so rounding, overflow and the sign of
      zero are not in this model.  The properties of the claims are
      stated on comparisons, on the structure of the results and on the
      code's own operations, which do not depend on rounding.

    - [F64] embeds [sma] and [sharpe] over binary64 itself (primitive
      floats, evaluated by the kernel), to compute what the code returns
      on concrete doubles where rounding decides the answer. *)

From Stdlib Require Import List Sorted ZArith QArith Qround Lqa Lia Bool String Arith.
From Stdlib Require Import PrimFloat.
Import ListNotations.

Set Implicit Arguments.

(** ** JavaScript numbers *)

Module JsNum.

Inductive num : Type :=
| Fin (q : Q)
| PInf
| NInf
| NaN.

Definition zero : num := Fin 0.
Definition one : num := Fin 1.
Definition half : num := Fin (1 # 2).

Definition of_Z (z : Z) : num := Fin (inject_Z z).
Definition of_nat (n : nat) : num := of_Z (Z.of_nat n).

(** Sign of a number, as a [comparison] with zero; a zero counts as [+0]. *)
Definition sign (x : num) : comparison :=
  match x with
  | Fin q => q ?= 0
  | PInf => Gt
  | NInf => Lt
  | NaN => Eq
  end.

Definition sign_mul (a b : comparison) : comparison :=
  match a, b with
  | Eq, _ | _, Eq => Eq
  | Gt, Gt | Lt, Lt => Gt
  | _, _ => Lt
  end.

(** The infinity of a given sign; [Eq] stands for the invalid
    operations [0 * Infinity] and [0 / 0]. *)
Definition inf_of_sign (c : comparison) : num :=
  match c with
  | Gt => PInf
  | Lt => NInf
  | Eq => NaN
  end.

Definition neg (x : num) : num :=
  match x with
  | Fin q => Fin (- q)
  | PInf => NInf
  | NInf => PInf
  | NaN => NaN
  end.

(** [x + y]: the exact sum of finite operands, where a double is the
    rounded sum and overflows to an infinity. *)
Definition add (x y : num) : num :=
  match x, y with
  | NaN, _ | _, NaN => NaN
  | Fin a, Fin b => Fin (a + b)
  | PInf, NInf | NInf, PInf => NaN
  | PInf, _ | _, PInf => PInf
  | NInf, _ | _, NInf => NInf
  end.

Definition sub (x y : num) : num := add x (neg y).

(** [x * y]: the exact product of finite operands, unrounded and
    unbounded as the sum. *)
Definition mul (x y : num) : num :=
  match x, y with
  | NaN, _ | _, NaN => NaN
  | Fin a, Fin b => Fin (a * b)
  | _, _ => inf_of_sign (sign_mul (sign x) (sign y))
  end.

(** [x / y]: the exact quotient of finite operands when [y] is not 0;
    the IEEE results on a zero divisor and on the special values. *)
Definition div (x y : num) : num :=
  match x, y with
  | NaN, _ | _, NaN => NaN
  | Fin a, Fin b =>
      if Qeq_bool b 0 then inf_of_sign (a ?= 0) else Fin (a / b)
  | Fin _, _ => Fin 0
  | _, Fin b =>
      inf_of_sign (sign_mul (sign x) (if Qeq_bool b 0 then Gt else b ?= 0))
  | _, _ => NaN
  end.

(** [Math.floor] *)
Definition floor (x : num) : num :=
  match x with
  | Fin q => of_Z (Qfloor q)
  | _ => x
  end.

Definition Qlt_bool (a b : Q) : bool := negb (Qle_bool b a).

(** [x < y] and [x <= y]; every comparison with [NaN] is false. *)
Definition lt (x y : num) : bool :=
  match x, y with
  | NaN, _ | _, NaN => false
  | Fin a, Fin b => Qlt_bool a b
  | _, NInf => false
  | NInf, _ => true
  | PInf, _ => false
  | _, PInf => true
  end.

Definition le (x y : num) : bool :=
  match x, y with
  | NaN, _ | _, NaN => false
  | Fin a, Fin b => Qle_bool a b
  | NInf, _ => true
  | _, PInf => true
  | _, _ => false
  end.

Definition gt (x y : num) : bool := lt y x.
Definition ge (x y : num) : bool := le y x.

(** [x === y] on numbers *)
Definition strict_eq (x y : num) : bool :=
  match x, y with
  | Fin a, Fin b => Qeq_bool a b
  | PInf, PInf | NInf, NInf => true
  | _, _ => false
  end.

(** [Math.min(x, y)] *)
Definition min (x y : num) : num :=
  match x, y with
  | NaN, _ | _, NaN => NaN
  | _, _ => if le x y then x else y
  end.

(** [Math.max(x, y)] *)
Definition max (x y : num) : num :=
  match x, y with
  | NaN, _ | _, NaN => NaN
  | _, _ => if le x y then y else x
  end.

(** Truthiness of a number: [0] and [NaN] are falsy. *)
Definition truthy (x : num) : bool :=
  match x with
  | Fin q => negb (Qeq_bool q 0)
  | NaN => false
  | _ => true
  end.

(** Truthiness of a value that may be [null] or [undefined] ([None]). *)
Definition truthy_opt (o : option num) : bool :=
  match o with
  | Some x => truthy x
  | None => false
  end.

(** [o || d] where the right operand is a number *)
Definition or_else (o : option num) (d : num) : num :=
  match o with
  | Some x => if truthy x then x else d
  | None => d
  end.

(** Numeric equality of two numbers of the model: the same special
    value, or finite values that are equal as rationals. *)
Definition num_eq (x y : num) : Prop :=
  match x, y with
  | Fin a, Fin b => a == b
  | PInf, PInf | NInf, NInf | NaN, NaN => True
  | _, _ => False
  end.

Definition is_fin (x : num) : Prop :=
  match x with
  | Fin _ => True
  | _ => False
  end.

End JsNum.

Import JsNum.

Declare Scope num_scope.
Delimit Scope num_scope with num.
Infix "+" := add : num_scope.
Infix "-" := sub : num_scope.
Infix "*" := mul : num_scope.
Infix "/" := div : num_scope.
Infix "<?" := lt : num_scope.
Infix "<=?" := le : num_scope.
Infix ">?" := gt : num_scope.
Infix ">=?" := ge : num_scope.
Infix "===" := strict_eq (at level 70) : num_scope.
Infix "=~" := num_eq (at level 70) : num_scope.

(** ** Data model *)

(** [type:'buy'|'sell'] *)
Inductive Side : Type := buy | sell.

Definition Side_eqb (a b : Side) : bool :=
  match a, b with
  | buy, buy | sell, sell => true
  | _, _ => false
  end.

(** A label read from [labels[i]]; [None] is [undefined]. *)
Definition Label : Type := option string.

Definition Label_eqb (a b : Label) : bool :=
  match a, b with
  | Some x, Some y => String.eqb x y
  | None, None => true
  | _, _ => false
  end.

(** [{type, idx, price, date}] *)
Record Signal : Type := mkSignal {
  s_type : Side;
  s_idx : nat;
  s_price : num;
  s_date : Label
}.

(** [{type, date, price, qty, fee, cash, position}] *)
Record Trade : Type := mkTrade {
  t_type : Side;
  t_date : Label;
  t_price : num;
  t_qty : num;
  t_fee : num;
  t_cash : num;
  t_position : num
}.

(** [{date, total}] *)
Record EquityPoint : Type := mkEquityPoint {
  e_date : string;
  e_total : num
}.

(** ** [sma] *)

(** The body of the [for] loop of [sma] from index [i] on: [rest] holds
    [prices[i..]], [sum] is the running sum.  The test [i >= window-1]
    is written [window <= i+1].  A [null] entry is [None]. *)
Fixpoint sma_loop (prices : list num) (window : nat) (i : nat)
         (rest : list num) (sum : num) : list (option num) :=
  match rest with
  | [] => []
  | p :: rest' =>
      let sum1 := (sum + p)%num in
      let sum2 :=
        if (window <=? i)%nat
        then (sum1 - nth (i - window) prices NaN)%num
        else sum1 in
      (if (window <=? i + 1)%nat
       then Some (sum2 / of_nat window)%num
       else None)
        :: sma_loop prices window (S i) rest' sum2
  end.

Definition sma (prices : list num) (window : nat) : list (option num) :=
  sma_loop prices window 0 prices zero.

(** ** [generateSmaSignals] *)

(** [fastS[i]], [null] or [undefined] being [None] *)
Definition at_ (s : list (option num)) (i : nat) : option num :=
  nth i s None.

(** [a <= b] and the like on entries that may be [null]; they are only
    evaluated behind the truthiness guard, where no entry is [null]. *)
Definition opt_cmp (c : num -> num -> bool) (a b : option num) : bool :=
  match a, b with
  | Some x, Some y => c x y
  | _, _ => false
  end.

(** [fastS[i-1] && slowS[i-1] && fastS[i] && slowS[i]]: the four averages
    are truthy. *)
Definition guard (fastS slowS : list (option num)) (i : nat) : bool :=
  truthy_opt (at_ fastS (i - 1)) && truthy_opt (at_ slowS (i - 1))
  && truthy_opt (at_ fastS i) && truthy_opt (at_ slowS i).

(** [fastS[i-1] <= slowS[i-1] && fastS[i] > slowS[i]] *)
Definition crosses_up (fastS slowS : list (option num)) (i : nat) : bool :=
  opt_cmp le (at_ fastS (i - 1)) (at_ slowS (i - 1))
  && opt_cmp gt (at_ fastS i) (at_ slowS i).

(** [fastS[i-1] >= slowS[i-1] && fastS[i] < slowS[i]] *)
Definition crosses_down (fastS slowS : list (option num)) (i : nat) : bool :=
  opt_cmp ge (at_ fastS (i - 1)) (at_ slowS (i - 1))
  && opt_cmp lt (at_ fastS i) (at_ slowS i).

(** One iteration of the loop of [generateSmaSignals], at index [i >= 1]:
    the signals it pushes. *)
Definition signal_at (labels : list string) (prices : list num)
           (fastS slowS : list (option num)) (i : nat) : list Signal :=
  if guard fastS slowS i then
    if crosses_up fastS slowS i
    then [mkSignal buy i (nth i prices NaN) (nth_error labels i)]
    else if crosses_down fastS slowS i
    then [mkSignal sell i (nth i prices NaN) (nth_error labels i)]
    else []
  else [].

Definition generateSmaSignals (labels : list string) (prices : list num)
           (fast slow : nat) : list Signal :=
  let fastS := sma prices fast in
  let slowS := sma prices slow in
  flat_map (signal_at labels prices fastS slowS)
           (seq 1 (List.length prices - 1)).

(** ** [simulatePortfolio] *)

(** The mutable locals of [simulatePortfolio]: [cash], [position],
    [lastPrice] ([None] is its initial [null]) and the [trades] array. *)
Record Portfolio : Type := mkPortfolio {
  cash : num;
  position : num;
  lastPrice : option num;
  trades : list Trade
}.

(** [s.price * (1 + (s.type === 'buy' ? slippagePct : -slippagePct))] *)
Definition exec_price (slippagePct : num) (s : Signal) : num :=
  (s_price s *
   (one + match s_type s with
          | buy => slippagePct
          | sell => neg slippagePct
          end))%num.

(** [Math.floor((Math.min(cash * 0.5, cash) - fee) / price)] *)
Definition buy_qty (c price fee : num) : num :=
  floor ((min (c * half) c - fee) / price)%num.

(** One iteration of [for (const s of signals)]. *)
Definition process_signal (slippagePct feePct : num)
           (st : Portfolio) (s : Signal) : Portfolio :=
  let price := exec_price slippagePct s in
  let fee := (price * feePct)%num in
  if Side_eqb (s_type s) buy && (cash st >? price)%num then
    let qty := buy_qty (cash st) price fee in
    if (qty <=? zero)%num then st
    else
      let cost := (qty * price + fee)%num in
      let cash' := (cash st - cost)%num in
      let position' := (position st + qty)%num in
      mkPortfolio cash' position' (Some price)
        (trades st ++ [mkTrade buy (s_date s) price qty fee cash' position'])
  else if Side_eqb (s_type s) sell && (position st >? zero)%num then
    let qty := position st in
    let proceeds := (qty * price - fee)%num in
    let cash' := (cash st + proceeds)%num in
    let position' := (position st - qty)%num in
    mkPortfolio cash' position' (Some price)
      (trades st ++ [mkTrade sell (s_date s) price qty fee cash' position'])
  else mkPortfolio (cash st) (position st) (Some price) (trades st).

Definition init_portfolio (startingCash : num) : Portfolio :=
  mkPortfolio startingCash zero None [].

Definition run_signals (slippagePct feePct : num)
           (st : Portfolio) (signals : list Signal) : Portfolio :=
  fold_left (process_signal slippagePct feePct) signals st.

(** [{startingCash, finalCash, position, finalPrice, portfolioValue, trades}] *)
Record Result : Type := mkResult {
  r_startingCash : num;
  r_finalCash : num;
  r_position : num;
  r_finalPrice : num;
  r_portfolioValue : num;
  r_trades : list Trade
}.

(** [a[a.length-1]], [undefined] for the empty array *)
Definition last_elt (a : list num) : option num :=
  nth_error a (List.length a - 1).

Definition simulatePortfolio (signals : list Signal) (prices : list num)
           (labels : list string)
           (startingCash slippagePct feePct : num) : Result :=
  let st := run_signals slippagePct feePct
                        (init_portfolio startingCash) signals in
  let finalPrice := or_else (last_elt prices) (or_else (lastPrice st) zero) in
  let portfolioValue := (cash st + position st * finalPrice)%num in
  mkResult startingCash (cash st) (position st) finalPrice portfolioValue
           (trades st).

(** The default arguments [startingCash=100000], [slippagePct=0.001],
    [feePct=0.0005]. *)
Definition default_startingCash : num := of_Z 100000.
Definition default_slippagePct : num := Fin (1 # 1000).
Definition default_feePct : num := Fin (5 # 10000).

(** ** [computeEquityCurve] *)

(** The locals [cash], [position] and [tradeIndex] of the replay. *)
Record Replay : Type := mkReplay {
  rp_cash : num;
  rp_position : num;
  rp_tradeIndex : nat
}.

(** The [while] loop: [rest] is [trades[tradeIndex..]]. *)
Fixpoint apply_trades (rest : list Trade) (date : string) (st : Replay)
  : Replay :=
  match rest with
  | [] => st
  | t :: rest' =>
      if Label_eqb (t_date t) (Some date) then
        apply_trades rest' date
          match t_type t with
          | buy => mkReplay (t_cash t) (t_position t) (S (rp_tradeIndex st))
          | sell => mkReplay (t_cash t) (t_position t) (S (rp_tradeIndex st))
          end
      else st
  end.

(** The state after the [while] loop of the iteration for [date]. *)
Definition replay_step (trs : list Trade) (st : Replay) (date : string)
  : Replay :=
  apply_trades (skipn (rp_tradeIndex st) trs) date st.

(** [prices[i] || prices[prices.length-1] || 0] *)
Definition mark_price (prices : list num) (i : nat) : num :=
  or_else (nth_error prices i) (or_else (last_elt prices) zero).

(** The [for] loop over [labels] from index [i] on. *)
Fixpoint equity_loop (trs : list Trade) (prices : list num)
         (labels : list string) (i : nat) (st : Replay)
  : list EquityPoint :=
  match labels with
  | [] => []
  | date :: labels' =>
      let st' := replay_step trs st date in
      let price := mark_price prices i in
      let total := (rp_cash st' + rp_position st' * price)%num in
      mkEquityPoint date total :: equity_loop trs prices labels' (S i) st'
  end.

Definition init_replay (startingCash : num) : Replay :=
  mkReplay startingCash zero 0.

Definition computeEquityCurve (trs : list Trade) (prices : list num)
           (labels : list string) (startingCash : num) : list EquityPoint :=
  equity_loop trs prices labels 0 (init_replay startingCash).

(** The replay state once the labels [labels] have been walked. *)
Definition replay_after (trs : list Trade) (labels : list string)
           (st : Replay) : Replay :=
  fold_left (replay_step trs) labels st.

(** ** [pctReturns], [cagr], [sharpe] *)

Fixpoint pctReturns_from (prev : num) (rest : list EquityPoint) : list num :=
  match rest with
  | [] => []
  | e :: rest' =>
      (e_total e / prev - one)%num :: pctReturns_from (e_total e) rest'
  end.

Definition pctReturns (equity : list EquityPoint) : list num :=
  match equity with
  | [] => []
  | e :: rest => pctReturns_from (e_total e) rest
  end.

(** [equity[i].total] *)
Definition total_at (equity : list EquityPoint) (i : nat) : num :=
  match nth_error equity i with
  | Some e => e_total e
  | None => NaN
  end.

(** [returns.reduce((a,b)=>a+b,0)] *)
Definition sum_list (l : list num) : num := fold_left add l zero.

Section Metrics.

(** [Math.pow] and [Math.sqrt] are not rational functions; the metrics
    take them as parameters. *)
Variable pow : num -> num -> num.
Variable sqrt : num -> num.

Definition cagr (equity : list EquityPoint) : num :=
  if (List.length equity <? 2)%nat then zero
  else
    let start := total_at equity 0 in
    let end_ := total_at equity (List.length equity - 1) in
    let periods := of_nat (List.length equity) in
    let years := max (periods / of_Z 252)%num (one / of_Z 252)%num in
    (pow (end_ / start) (one / years) - one)%num.

(** The [std] of [sharpe]:
    [Math.sqrt(returns.map(r=>Math.pow(r-avg,2)).reduce((a,b)=>a+b,0) / n)],
    the population standard deviation. *)
Definition pop_std (returns : list num) : num :=
  let n := of_nat (List.length returns) in
  let avg := (sum_list returns / n)%num in
  sqrt (sum_list (map (fun r => pow (r - avg) (of_Z 2)) returns) / n)%num.

Definition sharpe (returns : list num) (rf : num) : num :=
  if (List.length returns =? 0)%nat then zero
  else
    let n := of_nat (List.length returns) in
    let avg := (sum_list returns / n)%num in
    let std := pop_std returns in
    if (std === zero)%num then zero
    else
      let annFactor := sqrt (of_Z 252) in
      ((avg - rf) / std * annFactor)%num.

End Metrics.

(** ** [sma] and [sharpe] on binary64 *)

(** The same two functions over IEEE 754 binary64, the numbers the code
    runs on: every operation is the correctly rounded one. *)
Module F64.

(** A length or a window as a number; exact below [2^53]. *)
Fixpoint of_nat (n : nat) : float :=
  match n with
  | O => PrimFloat.zero
  | S k => PrimFloat.add (of_nat k) PrimFloat.one
  end.

(** The loop of [sma], as [sma_loop] above. *)
Fixpoint sma_loop (prices : list float) (window : nat) (i : nat)
         (rest : list float) (sum : float) : list (option float) :=
  match rest with
  | [] => []
  | p :: rest' =>
      let sum1 := PrimFloat.add sum p in
      let sum2 :=
        if (window <=? i)%nat
        then PrimFloat.sub sum1 (nth (i - window) prices PrimFloat.nan)
        else sum1 in
      (if (window <=? i + 1)%nat
       then Some (PrimFloat.div sum2 (of_nat window))
       else None)
        :: sma_loop prices window (S i) rest' sum2
  end.

Definition sma (prices : list float) (window : nat) : list (option float) :=
  sma_loop prices window 0 prices PrimFloat.zero.

(** [returns.reduce((a,b)=>a+b,0)] *)
Definition sum_list (l : list float) : float :=
  fold_left PrimFloat.add l PrimFloat.zero.

(** [Math.pow(x, 2)], the only use [sharpe] makes of [Math.pow]: the
    square. *)
Definition pow2 (x : float) : float := PrimFloat.mul x x.

Definition pop_std (returns : list float) : float :=
  let n := of_nat (List.length returns) in
  let avg := PrimFloat.div (sum_list returns) n in
  PrimFloat.sqrt
    (PrimFloat.div (sum_list (map (fun r => pow2 (PrimFloat.sub r avg)) returns))
                   n).

Definition sharpe (returns : list float) (rf : float) : float :=
  if (List.length returns =? 0)%nat then PrimFloat.zero
  else
    let n := of_nat (List.length returns) in
    let avg := PrimFloat.div (sum_list returns) n in
    let std := pop_std returns in
    if PrimFloat.eqb std PrimFloat.zero then PrimFloat.zero
    else
      let annFactor := PrimFloat.sqrt (of_nat 252) in
      PrimFloat.mul (PrimFloat.div (PrimFloat.sub avg rf) std) annFactor.

(** The double written [0.1]. *)
Definition tenth : float := 0x1.999999999999ap-4%float.

End F64.

(** ** Vocabulary of the properties *)

(** Signals and trades of the examples. *)
Definition buy_at (i : nat) (p : Z) : Signal := mkSignal buy i (of_Z p) None.
Definition sell_at (i : nat) (p : Z) : Signal := mkSignal sell i (of_Z p) None.

(** A trade dated [date] that recorded the cash [c] and the position [p]. *)
Definition trade_on (side : Side) (date : string) (c p : Z) : Trade :=
  mkTrade side (Some date) (of_Z 10) (of_Z 1) zero (of_Z c) (of_Z p).

(** A finite, non-negative number. *)
Definition nonneg (x : num) : Prop :=
  exists q : Q, x = Fin q /\ (0 <= q)%Q.

(** A finite, non-negative integer. *)
Definition nonneg_int (x : num) : Prop :=
  exists (q : Q) (z : Z), x = Fin q /\ (q == inject_Z z)%Q /\ (0 <= z)%Z.

(** The ledger invariant: cash finite and non-negative, position a
    non-negative integer. *)
Definition ledger_ok (st : Portfolio) : Prop :=
  nonneg (cash st) /\ nonneg_int (position st).

(** A position that is not negative and, whenever it is finite, a whole
    number. *)
Definition position_ok (x : num) : Prop :=
  (x <? zero)%num = false
  /\ forall q : Q, x = Fin q ->
                   exists z : Z, (0 <= z)%Z /\ (q == inject_Z z)%Q.

(** Every trade of the log has a finite quantity. *)
Definition finite_quantities (trs : list Trade) : Prop :=
  Forall (fun t => is_fin (t_qty t)) trs.

(** The price of the signal is finite and not negative. *)
Definition nonneg_price (s : Signal) : Prop :=
  exists sp : Q, s_price s = Fin sp /\ (0 <= sp)%Q.

(** What one signal does to the ledger.  Nothing; or it records a Buy,
    whose quantity is not [<= 0] and is added to the position, which it
    does not lower; or it records a Sell of a position [> 0], whose
    quantity is the whole position, and the position left is not [> 0]
    and is exactly 0 when the position sold was finite. *)
Inductive ledger_step (st : Portfolio) (s : Signal) (st' : Portfolio) : Prop :=
| step_skip :
    trades st' = trades st -> cash st' = cash st ->
    position st' = position st -> ledger_step st s st'
| step_buy (t : Trade) :
    s_type s = buy -> trades st' = trades st ++ [t] -> t_type t = buy ->
    (t_qty t <=? zero)%num = false ->
    position st' = (position st + t_qty t)%num ->
    (position st' <? position st)%num = false ->
    ledger_step st s st'
| step_sell (t : Trade) :
    s_type s = sell -> trades st' = trades st ++ [t] -> t_type t = sell ->
    (position st >? zero)%num = true ->
    t_qty t = position st ->
    (position st' >? zero)%num = false ->
    (is_fin (position st) -> (position st' === zero)%num = true) ->
    ledger_step st s st'.

(** The running sum of [sma] after index [i], as the specification
    words it: the incoming price is added and, once the window is full,
    the price leaving the window is subtracted. *)
Fixpoint running_sum (prices : list num) (W : nat) (i : nat) : num :=
  let before :=
    match i with
    | O => zero
    | S k => running_sum prices W k
    end in
  let added := (before + nth i prices NaN)%num in
  if (W <=? i)%nat then (added - nth (i - W) prices NaN)%num else added.

(** The Buy signals that [continue]: enough cash, but a quantity [<= 0]. *)
Definition qty_rejected (slippagePct feePct : num) (st : Portfolio)
           (s : Signal) : bool :=
  let price := exec_price slippagePct s in
  Side_eqb (s_type s) buy && (cash st >? price)%num
  && (buy_qty (cash st) price (price * feePct) <=? zero)%num.

(** [trades[trades.length-1].price], the price of the last executed trade *)
Definition last_trade_price (trs : list Trade) : option num :=
  option_map t_price (nth_error trs (List.length trs - 1)).

(** A signal of the given side is emitted at index [i]. *)
Definition emits (side : Side) (i : nat) (out : list Signal) : Prop :=
  exists sg, In sg out /\ s_type sg = side /\ s_idx sg = i.

(** An average is defined: it is not the [null] marker. *)
Definition defined (o : option num) : Prop := o <> None.

(** The sum of a list of rationals. *)
Definition Qsum (l : list Q) : Q := fold_right Qplus 0%Q l.

(** [l[a..b-1]] *)
Definition slice (a b : nat) (l : list Q) : list Q :=
  firstn (b - a) (skipn a l).

(** The arithmetic mean of [prices[i-W+1 .. i]]. *)
Definition window_mean (qs : list Q) (W i : nat) : Q :=
  (Qsum (firstn W (skipn (i + 1 - W) qs)) / inject_Z (Z.of_nat W))%Q.

(** The cash and position recorded by the last trade of [pre], or the
    given ones when [pre] is empty. *)
Definition last_ledger (pre : list Trade) (cp : num * num) : num * num :=
  fold_left (fun _ t => (t_cash t, t_position t)) pre cp.

(** The trades of the log dated [date], in log order. *)
Definition trades_on (trs : list Trade) (date : string) : list Trade :=
  filter (fun t => Label_eqb (t_date t) (Some date)) trs.

(** The curve as the specification words it: at every timestamp, all
    the trades of the log that carry exactly that timestamp are applied,
    then [total = cash + position * price]. *)
Fixpoint equity_by_timestamp (trs : list Trade) (prices : list num)
         (labels : list string) (i : nat) (cp : num * num)
  : list EquityPoint :=
  match labels with
  | [] => []
  | date :: labels' =>
      let cp' := last_ledger (trades_on trs date) cp in
      mkEquityPoint date (fst cp' + snd cp' * mark_price prices i)%num
        :: equity_by_timestamp trs prices labels' (S i) cp'
  end.

(** The dates of the log follow the order of the labels: every trade is
    dated with a label, and later trades with the same or a later one. *)
Inductive aligned : list Trade -> list string -> Prop :=
| aligned_nil (labels : list string) : aligned [] labels
| aligned_here (t : Trade) (trs : list Trade) (date : string)
               (labels : list string) :
    t_date t = Some date -> aligned trs (date :: labels) ->
    aligned (t :: trs) (date :: labels)
| aligned_next (trs : list Trade) (date : string) (labels : list string) :
    aligned trs labels -> aligned trs (date :: labels).

(** A finite number equal to [c]. *)
Definition fin_eq (c : Q) (x : num) : Prop :=
  exists q : Q, x = Fin q /\ (q == c)%Q.

(** An instance of the two parameters, exact where the metrics of the
    degenerate cases need it: non-negative integer powers by repeated
    multiplication, and the square root of [a/b] taken as
    [floor(sqrt(a*b))/b]. *)
Definition pow_int (x y : num) : num :=
  match y with
  | Fin (Zpos n # 1) => Pos.iter (mul x) one n
  | Fin (0 # 1) => one
  | _ => NaN
  end.

(** The square root of the instance. *)
Definition sqrt_floor (x : num) : num :=
  match x with
  | Fin (a # b) =>
      if (a <? 0)%Z then NaN else Fin (Z.sqrt (a * Zpos b) # b)
  | PInf => PInf
  | _ => NaN
  end.

(** * The rest of the strategy code and the response cache *)

(** ** [generateMarkersFromPrices] *)

(** [{x, y, type}] *)
Record Marker : Type := mkMarker {
  m_x : Label;
  m_y : num;
  m_type : Side
}.

(** One iteration of the loop of [generateMarkersFromPrices], at an
    interior index [i]: the markers it pushes. *)
Definition marker_at (labels : list string) (prices : list num) (i : nat)
  : list Marker :=
  let prev := nth (i - 1) prices NaN in
  let cur := nth i prices NaN in
  let next := nth (i + 1) prices NaN in
  if (cur <? prev)%num && (cur <? next)%num
  then [mkMarker (nth_error labels i) cur buy]
  else if (cur >? prev)%num && (cur >? next)%num
  then [mkMarker (nth_error labels i) cur sell]
  else [].

(** The loop runs over [i = 1 .. prices.length-2]; the result is
    [markers.slice(0,10)]. *)
Definition generateMarkersFromPrices (labels : list string)
           (prices : list num) : list Marker :=
  firstn 10 (flat_map (marker_at labels prices)
                      (seq 1 (List.length prices - 2))).

(** ** Vocabulary of the further properties *)

(** [sub] is [l] with some elements left out, the order kept. *)
Inductive subseq (A : Type) : list A -> list A -> Prop :=
| subseq_nil : subseq [] []
| subseq_take (x : A) (sub l : list A) :
    subseq sub l -> subseq (x :: sub) (x :: l)
| subseq_skip (x : A) (sub l : list A) :
    subseq sub l -> subseq sub (x :: l).

(** The trade [t] records the signal [s]: its side, its date and its
    slippage-adjusted price. *)
Definition from_signal (slippagePct : num) (s : Signal) (t : Trade) : Prop :=
  t_type t = s_type s /\ t_date t = s_date s
  /\ t_price t = exec_price slippagePct s.

(** No Sell stands first in the log or directly after another Sell;
    [after_sell] tells whether a Sell (or the start) precedes [l]. *)
Fixpoint alternating (after_sell : bool) (l : list Trade) : bool :=
  match l with
  | [] => true
  | t :: l' =>
      match t_type t with
      | buy => alternating false l'
      | sell => negb after_sell && alternating true l'
      end
  end.

(** The last trade of the log, if any. *)
Definition last_trade (trs : list Trade) : option Trade :=
  nth_error trs (List.length trs - 1).

(** Whether the log [l] ends with a Sell; [b] answers for the empty log. *)
Definition ends_sell (b : bool) (l : list Trade) : bool :=
  fold_left (fun _ t => Side_eqb (t_type t) sell) l b.

(** The series and labels of the examples. *)
Definition demo_prices : list num :=
  map of_Z [10; 9; 8; 9; 10; 11; 10; 9; 8; 7]%Z.

Definition demo_labels : list string :=
  ["d0"; "d1"; "d2"; "d3"; "d4"; "d5"; "d6"; "d7"; "d8"; "d9"]%string.

(** ** The in-memory cache of [server.js]

    The cache used when [REDIS_URL] is not set, and [fetchWithCache] on
    top of it, for one call at a time.  [Date.now()] is an argument, in
    milliseconds; a cached value is a JSON value of type [Data] with its
    JavaScript truthiness.  Keys are the strings that the endpoints
    build (["finnhub:quote:..."] and the like), never the name of a
    member of [Object.prototype]. *)

Section CacheModel.

Variable Data : Type.
Variable data_truthy : Data -> bool.

(** [{expires, data}] *)
Record Entry : Type := mkEntry {
  expires : Z;
  data : Data
}.

(** The object [cache], keyed by strings; [const cache = {}]. *)
Definition Cache : Type := string -> option Entry.

Definition empty_cache : Cache := fun _ => None.

(** [cache[key] = {expires: Date.now() + ttlSec*1000, data}] *)
Definition setCache (cache : Cache) (key : string) (d : Data) (ttlSec : Z)
           (now : Z) : Cache :=
  fun k =>
    if String.eqb k key then Some (mkEntry (now + ttlSec * 1000) d)
    else cache k.

(** [delete cache[key]] *)
Definition delete_key (cache : Cache) (key : string) : Cache :=
  fun k => if String.eqb k key then None else cache k.

(** [getCache]: the value returned ([None] is [null]) and the cache left. *)
Definition getCache (cache : Cache) (key : string) (now : Z)
  : option Data * Cache :=
  match cache key with
  | None => (None, cache)
  | Some e =>
      if (now >? expires e)%Z then (None, delete_key cache key)
      else (Some (data e), cache)
  end.

(** [fetchWithCache]: [response] is the JSON body that [fetch(url)]
    yields if it is called, [now] the time of the lookup and [now'] the
    time of the store.  The result is the value returned, the cache
    left, and whether [fetch] was called. *)
Definition fetchWithCache (cache : Cache) (key : string) (response : Data)
           (ttl : Z) (now now' : Z) : Data * Cache * bool :=
  let (cached, cache1) := getCache cache key now in
  let miss := (response, setCache cache1 key response ttl now', true) in
  match cached with
  | Some d => if data_truthy d then (d, cache1, false) else miss
  | None => miss
  end.

End CacheModel.

(** JSON numbers as cached values, for the examples: [0] is falsy. *)
Definition Z_truthy (z : Z) : bool := negb (z =? 0)%Z.

(** * Properties *)

(** ** Boolean comparisons on rationals and numbers *)

Lemma Qle_bool_false (a b : Q) : Qle_bool a b = false <-> (b < a)%Q.
Proof.
  split; intro H.
  - apply Qnot_le_lt. intro L. apply Qle_bool_iff in L. congruence.
  - destruct (Qle_bool a b) eqn:E; trivial.
    apply Qle_bool_iff in E. exfalso. apply (Qlt_not_le _ _ H E).
Qed.

Lemma Qlt_bool_iff (a b : Q) : Qlt_bool a b = true <-> (a < b)%Q.
Proof.
  unfold Qlt_bool. rewrite negb_true_iff. apply Qle_bool_false.
Qed.

Lemma Qlt_bool_false (a b : Q) : Qlt_bool a b = false <-> (b <= a)%Q.
Proof.
  unfold Qlt_bool. rewrite negb_false_iff. apply Qle_bool_iff.
Qed.

Lemma Qeq_bool_false (a b : Q) : Qeq_bool a b = false <-> ~ (a == b)%Q.
Proof.
  split; intro H.
  - intro E. apply Qeq_bool_iff in E. congruence.
  - destruct (Qeq_bool a b) eqn:E; trivial.
    apply Qeq_bool_iff in E. contradiction.
Qed.

(** Turns the boolean tests on rationals in the context and the goal
    into the propositions they decide. *)
Ltac qprop :=
  repeat match goal with
  | H : Qle_bool _ _ = true |- _ => apply Qle_bool_iff in H
  | H : Qle_bool _ _ = false |- _ => apply Qle_bool_false in H
  | H : Qlt_bool _ _ = true |- _ => apply Qlt_bool_iff in H
  | H : Qlt_bool _ _ = false |- _ => apply Qlt_bool_false in H
  | H : Qeq_bool _ _ = true |- _ => apply Qeq_bool_iff in H
  | H : Qeq_bool _ _ = false |- _ => apply Qeq_bool_false in H
  | |- Qle_bool _ _ = true => apply Qle_bool_iff
  | |- Qle_bool _ _ = false => apply Qle_bool_false
  | |- Qlt_bool _ _ = true => apply Qlt_bool_iff
  | |- Qlt_bool _ _ = false => apply Qlt_bool_false
  | |- Qeq_bool _ _ = true => apply Qeq_bool_iff
  | |- Qeq_bool _ _ = false => apply Qeq_bool_false
  end.


(** [x > y] and [x < y] exclude each other. *)
Lemma gt_lt_excl (x y : num) : (x >? y)%num = true -> (x <? y)%num = false.
Proof.
  unfold gt. destruct x, y; simpl; try congruence.
  intros H. qprop. lra.
Qed.

Lemma Qfloor_pos_ge1 (q : Q) :
  (0 < inject_Z (Qfloor q))%Q -> (1 <= inject_Z (Qfloor q))%Q.
Proof.
  intros H. rewrite <- (Zlt_Qlt 0) in H.
  rewrite <- (Zle_Qle 1). lia.
Qed.

(** ** The trade log is a filtered image of the signals *)

Lemma process_signal_trades (sl fe : num) (st : Portfolio) (s : Signal) :
  trades (process_signal sl fe st s) = trades st \/
  exists t, trades (process_signal sl fe st s) = trades st ++ [t].
Proof.
  unfold process_signal.
  destruct (Side_eqb (s_type s) buy && (cash st >? exec_price sl s)%num).
  - destruct (_ <=? zero)%num; [left; reflexivity | right; eexists; reflexivity].
  - destruct (Side_eqb (s_type s) sell && (position st >? zero)%num);
      [right; eexists; reflexivity | left; reflexivity].
Qed.

Lemma run_signals_trades_length (sl fe : num) (signals : list Signal) :
  forall st,
    (List.length (trades (run_signals sl fe st signals))
     <= List.length (trades st) + List.length signals)%nat.
Proof.
  induction signals as [|s signals IH]; intros st; simpl.
  - lia.
  - specialize (IH (process_signal sl fe st s)).
    destruct (process_signal_trades sl fe st s) as [E | [t E]];
      rewrite E in IH; [|rewrite length_app in IH; simpl in IH]; lia.
Qed.

(** C9: the trade log is never longer than the signal sequence; every
    signal leaves the log as it is or appends exactly one trade. *)
Theorem trades_le_signals :
  forall (signals : list Signal) (prices : list num) (labels : list string)
         (startingCash slippagePct feePct : num),
    (List.length
       (r_trades (simulatePortfolio signals prices labels
                                    startingCash slippagePct feePct))
     <= List.length signals)%nat
    /\ forall st s,
        trades (process_signal slippagePct feePct st s) = trades st \/
        exists t,
          trades (process_signal slippagePct feePct st s) = trades st ++ [t].
Proof.
  intros. split.
  - unfold simulatePortfolio. simpl.
    apply (run_signals_trades_length slippagePct feePct signals
                                     (init_portfolio startingCash)).
  - intros. apply process_signal_trades.
Qed.

(** ** Arithmetic of the Buy rule on finite values *)

Lemma div_fin_pos (a p : Q) : (0 < p)%Q -> (Fin a / Fin p)%num = Fin (a / p).
Proof.
  intros Hp. cbn. destruct (Qeq_bool p 0) eqn:E; trivial.
  qprop. exfalso. lra.
Qed.

Lemma min_half (c : Q) :
  (0 <= c)%Q -> min (Fin c * half)%num (Fin c) = Fin (c * (1 # 2)).
Proof.
  intros Hc. cbn. destruct (Qle_bool (c * (1 # 2)) c) eqn:E; trivial.
  qprop. exfalso. lra.
Qed.

Lemma buy_qty_fin (c p f : Q) :
  (0 <= c)%Q -> (0 < p)%Q ->
  buy_qty (Fin c) (Fin p) (Fin p * Fin f)%num
  = of_Z (Qfloor ((c * (1 # 2) - p * f) / p)).
Proof.
  intros Hc Hp. unfold buy_qty. rewrite min_half by assumption.
  cbn [mul].
  change (Fin (c * (1 # 2)) - Fin (p * f))%num
    with (Fin (c * (1 # 2) - p * f)).
  rewrite div_fin_pos by assumption. reflexivity.
Qed.

Lemma buy_cost_le_half (c p f : Q) :
  (0 < p)%Q ->
  (inject_Z (Qfloor ((c * (1 # 2) - p * f) / p)) * p + p * f <= c * (1 # 2))%Q.
Proof.
  intros Hp.
  pose proof (Qfloor_le ((c * (1 # 2) - p * f) / p)) as Hfl.
  apply (Qmult_le_compat_r _ _ p) in Hfl; [|lra].
  assert (E : ((c * (1 # 2) - p * f) / p * p == c * (1 # 2) - p * f)%Q).
  { field. lra. }
  rewrite E in Hfl. lra.
Qed.

(** ** The Buy rule *)



(** ** Recorded trades *)

(** C8, as the code has it: a Buy recorded at a strictly positive
    executed price, with finite cash and a non-negative fee rate, leaves
    strictly less cash than before; a Sell recorded from a finite
    position leaves a position of exactly 0. *)
Theorem recorded_trade_effect :
  forall (sl fe : num) (st : Portfolio) (s : Signal) (t : Trade),
    trades (process_signal sl fe st s) = trades st ++ [t] ->
    (t_type t = buy ->
     forall c p f : Q,
       cash st = Fin c -> exec_price sl s = Fin p -> (0 < p)%Q ->
       fe = Fin f -> (0 <= f)%Q ->
       (cash (process_signal sl fe st s) <? cash st)%num = true)
    /\ (t_type t = sell ->
        is_fin (position st) ->
        (position (process_signal sl fe st s) =~ zero)%num).
Proof.
  intros sl fe st s t. unfold process_signal.
  destruct (Side_eqb (s_type s) buy && (cash st >? exec_price sl s)%num) eqn:B.
  - destruct (buy_qty _ _ _ <=? zero)%num eqn:Q.
    + intros H. exfalso. apply (f_equal (@List.length _)) in H.
      rewrite length_app in H. simpl in H. lia.
    + cbn [trades cash position]. intros H. apply app_inv_head in H.
      injection H as <-. cbn [t_type]. split; [|discriminate].
      intros _ c p f Hc Hp Hpos Hf Hf0. subst fe.
      rewrite Hc, Hp in *. apply andb_prop in B. destruct B as [_ B].
      unfold gt, lt in B. qprop.
      rewrite buy_qty_fin in * by lra.
      unfold le, of_Z, zero in Q. qprop. apply Qfloor_pos_ge1 in Q.
      unfold of_Z, sub, add, mul, neg, lt. qprop.
      set (k := inject_Z (Qfloor ((c * (1 # 2) - p * f) / p))) in *.
      nra.
  - destruct (Side_eqb (s_type s) sell && (position st >? zero)%num) eqn:S.
    + cbn [trades cash position]. intros H. apply app_inv_head in H.
      injection H as <-. cbn [t_type]. split; [discriminate|].
      intros _ Hfin. destruct (position st); try contradiction.
      unfold sub, add, neg, zero, num_eq. lra.
    + cbn [trades]. intros H. exfalso. apply (f_equal (@List.length _)) in H.
      rewrite length_app in H. simpl in H. lia.
Qed.

Lemma recorded_trade_effect_witness :
  (cash (process_signal zero zero (init_portfolio (of_Z 100)) (buy_at 4 10))
   <? of_Z 100)%num = true.
Proof.
  refine (proj1 (@recorded_trade_effect zero zero (init_portfolio (of_Z 100))
                   (buy_at 4 10) _ eq_refl)
                eq_refl 100 _ 0 eq_refl eq_refl _ eq_refl _)%Q.
  - reflexivity.
  - discriminate.
Defined.

(** C8 fails at a Buy signal of price 0: the quantity is
    [floor(50 / 0) = Infinity], the cost [Infinity * 0 + 0] is [NaN], the
    trade is recorded and the cash after it is [NaN], which is not less
    than the cash before. *)
Lemma buy_at_price_zero_cash_not_less :
  let st := init_portfolio (of_Z 100) in
  let st' := process_signal default_slippagePct default_feePct st
                            (buy_at 0 0) in
  (exists t, trades st' = trades st ++ [t] /\ t_type t = buy)
  /\ cash st' = NaN
  /\ (cash st' <? cash st)%num = false.
Proof.
  cbv zeta. split; [|split].
  - eexists. split; reflexivity.
  - reflexivity.
  - reflexivity.
Qed.

(** ** The ledger invariant *)

(** A quantity that is not [<= 0] does not lower what it is added to. *)
Lemma add_pos_not_less (x q : num) :
  (q <=? zero)%num = false -> (x + q <? x)%num = false.
Proof.
  destruct x as [a| | |], q as [b| | |]; cbn; try reflexivity;
    try discriminate.
  intros H. qprop. lra.
Qed.

Lemma sub_self_zero (x : num) :
  ((x - x) >? zero)%num = false
  /\ (is_fin x -> ((x - x) === zero)%num = true).
Proof.
  destruct x as [a| | |]; cbn; split; try reflexivity; try contradiction.
  - apply Qlt_bool_false. lra.
  - intros _. apply Qeq_bool_iff. lra.
Qed.

Lemma process_signal_ledger_step (sl fe : num) (st : Portfolio) (s : Signal) :
  ledger_step st s (process_signal sl fe st s).
Proof.
  unfold process_signal.
  destruct (s_type s) eqn:Ty; cbn [Side_eqb andb].
  - destruct (cash st >? exec_price sl s)%num.
    + destruct (buy_qty _ _ _ <=? zero)%num eqn:K.
      * apply step_skip; reflexivity.
      * eapply step_buy; cbn [trades position t_type t_qty];
          try reflexivity; trivial.
        apply add_pos_not_less. exact K.
    + apply step_skip; reflexivity.
  - destruct (position st >? zero)%num eqn:G.
    + eapply step_sell; cbn [trades position t_type t_qty];
        try reflexivity; trivial; apply sub_self_zero.
    + apply step_skip; reflexivity.
Qed.

Lemma floor_fin (x : num) (b : Q) :
  floor x = Fin b -> exists a : Q, x = Fin a /\ b = inject_Z (Qfloor a).
Proof.
  destruct x as [a| | |]; cbn; intros H; try discriminate.
  injection H as <-. exists a. split; reflexivity.
Qed.

Lemma add_fin (x y : num) (q : Q) :
  (x + y)%num = Fin q -> exists a b : Q, x = Fin a /\ y = Fin b /\ q = (a + b)%Q.
Proof.
  destruct x as [a| | |], y as [b| | |]; cbn; intros H; try discriminate.
  injection H as <-. exists a, b. repeat split.
Qed.

Lemma process_signal_position (sl fe : num) (st : Portfolio) (s : Signal) :
  position_ok (position st) ->
  position_ok (position (process_signal sl fe st s)).
Proof.
  intros [Hneg Hint]. unfold process_signal.
  destruct (s_type s) eqn:Ty; cbn [Side_eqb andb].
  - destruct (cash st >? exec_price sl s)%num; [|split; assumption].
    destruct (buy_qty _ _ _ <=? zero)%num eqn:K; [split; assumption|].
    cbn [position]. unfold buy_qty in *.
    set (x := ((min (cash st * half) (cash st)
                - exec_price sl s * fe) / exec_price sl s)%num) in *.
    clearbody x. split.
    + destruct (position st) as [a| | |], (floor x) as [b| | |];
        cbn in *; try reflexivity; try discriminate.
      qprop. lra.
    + intros q Hq. destruct (add_fin _ _ Hq) as [a [b [Ea [Eb ->]]]].
      destruct (Hint a Ea) as [z [Hz Hza]].
      destruct (floor_fin _ Eb) as [y [_ ->]].
      rewrite Eb in K. unfold le, zero in K. qprop.
      exists (z + Qfloor y)%Z. split.
      * rewrite <- (Zlt_Qlt 0) in K. lia.
      * rewrite inject_Z_plus, Hza. reflexivity.
  - destruct (position st >? zero)%num eqn:G; [|split; assumption].
    cbn [position]. split.
    + destruct (position st) as [a| | |]; cbn; try reflexivity.
      apply Qlt_bool_false. lra.
    + intros q Hq. destruct (position st) as [a| | |]; cbn in Hq;
        try discriminate.
      injection Hq as <-. exists 0%Z. split; [lia|]. unfold inject_Z. lra.
Qed.

Lemma run_signals_position (sl fe : num) (signals : list Signal) :
  forall st, position_ok (position st) ->
             position_ok (position (run_signals sl fe st signals)).
Proof.
  induction signals as [|s signals IH]; intros st Hst; simpl.
  - exact Hst.
  - apply IH. apply process_signal_position. exact Hst.
Qed.

(** The log only grows. *)
Lemma run_signals_trades_prefix (sl fe : num) (signals : list Signal) :
  forall st, exists ext,
    trades (run_signals sl fe st signals) = trades st ++ ext.
Proof.
  induction signals as [|s signals IH]; intros st; simpl.
  - exists []. rewrite app_nil_r. reflexivity.
  - destruct (IH (process_signal sl fe st s)) as [ext E]. rewrite E.
    destruct (process_signal_trades sl fe st s) as [-> | [t ->]].
    + exists ext. reflexivity.
    + exists (t :: ext). rewrite <- app_assoc. reflexivity.
Qed.

(** One signal of finite price [>= 0], rates in [0, 1]: if the log
    still has finite quantities only, the cash stays finite and
    non-negative and the position a non-negative integer. *)
Lemma process_signal_cash (sigma phi : Q) (st : Portfolio) (s : Signal) :
  (0 <= sigma <= 1)%Q -> (0 <= phi <= 1)%Q ->
  nonneg_price s -> ledger_ok st ->
  finite_quantities (trades (process_signal (Fin sigma) (Fin phi) st s)) ->
  ledger_ok (process_signal (Fin sigma) (Fin phi) st s).
Proof.
  intros Hs Hf [sp [Hsp Hpos]] [[c [Hc Hc0]] [q [z [Hq [Hqz Hz]]]]].
  unfold process_signal, exec_price. rewrite Hsp, Hc, Hq.
  destruct (s_type s) eqn:Ty; cbn [Side_eqb andb].
  - (* buy *)
    cbn [one mul add].
    set (p := (sp * (1 + sigma))%Q).
    assert (Hp : (0 <= p)%Q) by (unfold p; nra).
    destruct (Fin c >? Fin p)%num eqn:G.
    + unfold gt, lt in G. qprop.
      destruct (Qeq_dec p 0) as [Hp0 | Hp0].
      * (* executed price 0: the quantity is infinite *)
        assert (Eq : buy_qty (Fin c) (Fin p) (Fin (p * phi)) = PInf).
        { unfold buy_qty. rewrite min_half by lra. cbn.
          rewrite (proj2 (Qeq_bool_iff p 0) Hp0).
          replace (c * (1 # 2) + - (p * phi) ?= 0)%Q with Gt; [reflexivity|].
          symmetry. apply Qgt_alt. rewrite Hp0. lra. }
        rewrite Eq. cbn [le zero trades]. intros Hfin.
        apply Forall_app in Hfin. destruct Hfin as [_ Hfin].
        inversion Hfin as [|? ? Hq' _]. cbn in Hq'. contradiction.
      * assert (Hp' : (0 < p)%Q) by lra.
        change (Fin (p * phi)) with (Fin p * Fin phi)%num.
        rewrite buy_qty_fin by lra.
        pose proof (buy_cost_le_half c phi Hp') as Hcost.
        set (k := Qfloor ((c * (1 # 2) - p * phi) / p)) in *.
        clearbody k p.
        destruct (of_Z k <=? zero)%num eqn:K; intros _.
        -- split; [exists c | exists q, z]; cbn [cash position]; auto.
        -- unfold le, of_Z, zero in K. qprop.
           assert (Hk : (0 < k)%Z) by (rewrite (Zlt_Qlt 0); exact K).
           cbn [cash position trades]. split.
           ++ exists (c - (inject_Z k * p + p * phi))%Q.
              split; [reflexivity|]. lra.
           ++ exists (q + inject_Z k)%Q, (z + k)%Z.
              split; [reflexivity|]. split; [|lia].
              rewrite inject_Z_plus, Hqz. reflexivity.
    + intros _. split; [exists c | exists q, z]; cbn [cash position]; auto.
  - (* sell *)
    cbn [one mul add neg].
    set (p := (sp * (1 + - sigma))%Q).
    assert (Hp : (0 <= p)%Q) by (unfold p; nra).
    clearbody p.
    destruct (Fin q >? zero)%num eqn:G; cbn [andb]; intros _.
    + unfold gt, lt, zero in G. qprop.
      assert (Hz1 : (1 <= q)%Q).
      { rewrite Hqz in *. rewrite <- (Zlt_Qlt 0) in G.
        rewrite <- (Zle_Qle 1). lia. }
      cbn [cash position trades]. split.
      * exists (c + (q * p - p * phi))%Q. split; [reflexivity|]. nra.
      * exists (q + - q)%Q, 0%Z. split; [reflexivity|]. split; [|lia].
        unfold inject_Z. lra.
    + split; [exists c | exists q, z]; cbn [cash position]; auto.
Qed.

Lemma run_signals_cash (sigma phi : Q) (signals : list Signal) :
  (0 <= sigma <= 1)%Q -> (0 <= phi <= 1)%Q ->
  Forall nonneg_price signals ->
  forall st,
    ledger_ok st ->
    finite_quantities (trades (run_signals (Fin sigma) (Fin phi) st signals)) ->
    ledger_ok (run_signals (Fin sigma) (Fin phi) st signals).
Proof.
  intros Hs Hf Hall. induction Hall as [|s signals Hp _ IH];
    intros st Hst Hfin.
  - exact Hst.
  - simpl in *. apply IH; [|exact Hfin].
    apply process_signal_cash; trivial.
    destruct (run_signals_trades_prefix (Fin sigma) (Fin phi) signals
                (process_signal (Fin sigma) (Fin phi) st s)) as [ext E].
    unfold finite_quantities in Hfin. rewrite E in Hfin.
    apply Forall_app in Hfin. apply Hfin.
Qed.

(** C5, as the code has it.  After every prefix of the signals, whatever
    the prices, the rates and the starting cash, the position is not
    negative and, whenever it is finite, a whole number; and each signal
    either leaves cash, position and log unchanged, or records a Buy
    whose quantity is not [<= 0] and is added to the position without
    lowering it, or records a Sell of the whole position, after which the
    position is not [> 0] and, if the position sold was finite, exactly
    0.  With a finite starting cash [C0 > 0], rates in [0, 1] and finite
    signal prices [>= 0], the cash is not negative as long as every
    trade recorded so far has a finite quantity. *)
Theorem ledger_invariant :
  forall (signals : list Signal) (c0 sl fe : num) (n : nat),
    let st := run_signals sl fe (init_portfolio c0) (firstn n signals) in
    position_ok (position st)
    /\ (forall s, nth_error signals n = Some s ->
                  ledger_step st s (process_signal sl fe st s))
    /\ (forall c sigma phi : Q,
           c0 = Fin c -> (0 < c)%Q ->
           sl = Fin sigma -> (0 <= sigma <= 1)%Q ->
           fe = Fin phi -> (0 <= phi <= 1)%Q ->
           Forall nonneg_price (firstn n signals) ->
           finite_quantities (trades st) ->
           (zero <=? cash st)%num = true).
Proof.
  intros signals c0 sl fe n st. split; [|split].
  - apply run_signals_position. split.
    + reflexivity.
    + intros q Hq. injection Hq as <-. exists 0%Z. split; [lia | reflexivity].
  - intros s _. apply process_signal_ledger_step.
  - intros c sigma phi -> Hc -> Hs -> Hf Hall Hfin.
    assert (Hst : ledger_ok st).
    { apply run_signals_cash; trivial.
      split; [exists c; split; [reflexivity | lra]|].
      exists 0%Q, 0%Z. split; [reflexivity|]. split; [reflexivity | lia]. }
    destruct Hst as [[a [-> Ha]] _]. unfold le, zero. qprop. exact Ha.
Qed.

Lemma ledger_invariant_witness :
  (zero <=? cash (run_signals default_slippagePct default_feePct
                              (init_portfolio (of_Z 1000))
                              [buy_at 4 10; sell_at 7 9]))%num = true.
Proof.
  refine (proj2 (proj2 (@ledger_invariant [buy_at 4 10; sell_at 7 9]
                          (of_Z 1000) default_slippagePct default_feePct 2))
                1000 (1 # 1000) (5 # 10000) eq_refl _ eq_refl _ eq_refl _ _ _)%Q.
  - reflexivity.
  - split; discriminate.
  - split; discriminate.
  - repeat constructor; eexists; (split; [reflexivity | discriminate]).
  - repeat constructor.
Defined.

(** C5 fails at a Buy signal of price 0, which is non-negative: the
    quantity bought is [Infinity], so the position is not an integer and
    the cash is [NaN]; the Sell that follows is recorded and leaves the
    position [Infinity - Infinity = NaN], not 0.  It fails as well with
    a fee rate above 1, here 4: the fee of a Sell exceeds what the Sell
    brings in and the cash ends at [-250]. *)
Lemma ledger_breaks_at_price_zero :
  let run := run_signals default_slippagePct default_feePct
                         (init_portfolio (of_Z 100)) in
  position (run [buy_at 0 0]) = PInf
  /\ ~ nonneg_int (position (run [buy_at 0 0]))
  /\ cash (run [buy_at 0 0]) = NaN
  /\ (exists t, trades (run [buy_at 0 0; sell_at 1 1])
                = trades (run [buy_at 0 0]) ++ [t]
                /\ t_type t = sell)
  /\ position (run [buy_at 0 0; sell_at 1 1]) = NaN
  /\ (cash (run_signals zero (of_Z 4) (init_portfolio (of_Z 100))
                        [buy_at 0 10; sell_at 1 100]) <? zero)%num = true.
Proof.
  cbv zeta. repeat split.
  - intros [q [z [H _]]]. discriminate H.
  - eexists. split; reflexivity.
Qed.

(** ** The final mark price *)

Lemma process_signal_lastPrice (sl fe : num) (st : Portfolio) (s : Signal) :
  lastPrice (process_signal sl fe st s)
  = if qty_rejected sl fe st s then lastPrice st
    else Some (exec_price sl s).
Proof.
  unfold process_signal, qty_rejected.
  destruct (Side_eqb (s_type s) buy && (cash st >? exec_price sl s)%num);
    cbn [andb].
  - destruct (_ <=? zero)%num; reflexivity.
  - destruct (Side_eqb (s_type s) sell && (position st >? zero)%num);
      reflexivity.
Qed.

Lemma run_signals_snoc (sl fe : num) (st : Portfolio) (pre : list Signal)
      (s : Signal) :
  run_signals sl fe st (pre ++ [s])
  = process_signal sl fe (run_signals sl fe st pre) s.
Proof. unfold run_signals. rewrite fold_left_app. reflexivity. Qed.

(** A Buy that [continue]s for its quantity leaves [lastPrice] as the
    signals before it set it. *)
Lemma rejected_buy_keeps_mark (sl fe : num) (st : Portfolio) (s : Signal) :
  qty_rejected sl fe st s = true ->
  lastPrice (process_signal sl fe st s) = lastPrice st.
Proof.
  intros H. rewrite process_signal_lastPrice, H. reflexivity.
Qed.

(** C4, as the code has it: the reported value is
    [cash + position * finalPrice]; [finalPrice] is the last element of
    the price series when that is a non-zero number; otherwise (empty
    series, or a last price that is 0 or [NaN]) it is 0 when there is no
    signal, and the slippage-adjusted price of the last signal (or 0 if
    that price is 0), whether or not the signal was traded, when that
    signal is not a Buy rejected for its quantity. *)
Theorem final_mark_price :
  forall (signals : list Signal) (prices : list num) (labels : list string)
         (c0 sl fe : num),
    let r := simulatePortfolio signals prices labels c0 sl fe in
    r_portfolioValue r = (r_finalCash r + r_position r * r_finalPrice r)%num
    /\ (forall p, last_elt prices = Some p -> truthy p = true ->
                  r_finalPrice r = p)
    /\ (truthy_opt (last_elt prices) = false ->
        (signals = [] -> r_finalPrice r = zero)
        /\ forall pre s,
            signals = pre ++ [s] ->
            qty_rejected sl fe (run_signals sl fe (init_portfolio c0) pre) s
            = false ->
            r_finalPrice r = or_else (Some (exec_price sl s)) zero).
Proof.
  intros signals prices labels c0 sl fe r. subst r.
  unfold simulatePortfolio.
  cbn [r_portfolioValue r_finalCash r_position r_finalPrice].
  split; [reflexivity|]. split.
  - intros p Hl Ht. rewrite Hl. cbn [or_else]. rewrite Ht. reflexivity.
  - intros Hl.
    assert (Hor : forall d, or_else (last_elt prices) d = d).
    { intros d. destruct (last_elt prices) as [p|]; cbn in *; [|reflexivity].
      rewrite Hl. reflexivity. }
    rewrite !Hor. split.
    + intros ->. reflexivity.
    + intros pre s -> Hq.
      rewrite run_signals_snoc, process_signal_lastPrice, Hq. reflexivity.
Qed.

Lemma final_mark_price_witness :
  r_finalPrice (simulatePortfolio [buy_at 4 10; sell_at 7 9] [] []
                                  (of_Z 1000) zero zero)
  = or_else (Some (exec_price zero (sell_at 7 9))) zero.
Proof.
  exact (proj2 (proj2 (proj2 (@final_mark_price [buy_at 4 10; sell_at 7 9]
                                 [] [] (of_Z 1000) zero zero)) eq_refl)
               [buy_at 4 10] (sell_at 7 9) eq_refl eq_refl).
Defined.

(** C4 fails on an empty price series when the last signal is not
    traded: after a Buy at 10 takes half the cash, a Buy at 1000 is
    refused for lack of cash, yet its price becomes the final mark. *)
Lemma final_price_not_last_trade_price :
  let r := simulatePortfolio [buy_at 0 10; buy_at 1 1000] [] []
                             (of_Z 100) zero zero in
  List.length (r_trades r) = 1%nat
  /\ last_trade_price (r_trades r) = Some (Fin 10)
  /\ r_finalPrice r = Fin 1000
  /\ r_portfolioValue r = Fin 5050
  /\ Some (r_finalPrice r) <> last_trade_price (r_trades r).
Proof.
  cbv zeta. repeat split. discriminate.
Qed.

(** ** Crossover signals *)

Lemma crosses_excl (fastS slowS : list (option num)) (i : nat) :
  crosses_up fastS slowS i = true -> crosses_down fastS slowS i = false.
Proof.
  unfold crosses_up, crosses_down. intros H.
  apply andb_prop in H. destruct H as [_ H].
  apply andb_false_intro2.
  destruct (at_ fastS i), (at_ slowS i); simpl in *; try reflexivity.
  apply gt_lt_excl. exact H.
Qed.

Lemma signal_at_cases (labels : list string) (prices : list num)
      (fastS slowS : list (option num)) (i : nat) :
  signal_at labels prices fastS slowS i =
  if guard fastS slowS i && crosses_up fastS slowS i
  then [mkSignal buy i (nth i prices NaN) (nth_error labels i)]
  else if guard fastS slowS i && crosses_down fastS slowS i
       then [mkSignal sell i (nth i prices NaN) (nth_error labels i)]
       else [].
Proof.
  unfold signal_at. destruct (guard fastS slowS i); reflexivity.
Qed.

Lemma signal_at_emits (labels : list string) (prices : list num)
      (fastS slowS : list (option num)) (i : nat) (sg : Signal) :
  In sg (signal_at labels prices fastS slowS i) <->
  sg = mkSignal (s_type sg) i (nth i prices NaN) (nth_error labels i)
  /\ guard fastS slowS i = true
  /\ match s_type sg with
     | buy => crosses_up fastS slowS i = true
     | sell => crosses_down fastS slowS i = true
     end.
Proof.
  rewrite signal_at_cases.
  destruct (guard fastS slowS i); cbn [andb].
  - destruct (crosses_up fastS slowS i) eqn:U.
    + pose proof (crosses_excl _ _ _ U) as D. split.
      * intros [<- | []]. repeat split; assumption.
      * intros [E [_ T]]. left. rewrite E.
        destruct (s_type sg); [reflexivity | congruence].
    + destruct (crosses_down fastS slowS i) eqn:D; split.
      * intros [<- | []]. repeat split.
      * intros [E [_ T]]. left. rewrite E.
        destruct (s_type sg); [congruence | reflexivity].
      * intros [].
      * intros [_ [_ T]]. destruct (s_type sg); congruence.
  - split; [intros [] | intros [_ [H _]]; discriminate].
Qed.

Lemma signals_sorted_from (f : nat -> list Signal) :
  (forall i sg, In sg (f i) -> s_idx sg = i) ->
  (forall i, (List.length (f i) <= 1)%nat) ->
  forall n a,
    StronglySorted Nat.lt (map s_idx (flat_map f (seq a n)))
    /\ Forall (fun j => (a <= j)%nat) (map s_idx (flat_map f (seq a n))).
Proof.
  intros Hidx Hlen. induction n as [|n IH]; intros a; simpl.
  - split; constructor.
  - destruct (IH (S a)) as [Hs Hb].
    assert (Hb' : Forall (fun j => (a < j)%nat)
                         (map s_idx (flat_map f (seq (S a) n)))).
    { eapply Forall_impl; [|exact Hb]. simpl. intros; lia. }
    specialize (Hlen a). specialize (Hidx a).
    destruct (f a) as [|sg [|sg' l]]; simpl in *.
    + split; [exact Hs|]. eapply Forall_impl; [|exact Hb']. simpl. intros; lia.
    + rewrite (Hidx sg (or_introl eq_refl)). split.
      * constructor; assumption.
      * constructor; [lia|].
        eapply Forall_impl; [|exact Hb']. simpl. intros; lia.
    + lia.
Qed.

Lemma signal_at_length (labels : list string) (prices : list num)
      (fastS slowS : list (option num)) (i : nat) :
  (List.length (signal_at labels prices fastS slowS i) <= 1)%nat.
Proof.
  rewrite signal_at_cases.
  destruct (_ && _); [simpl; lia|]. destruct (_ && _); simpl; lia.
Qed.

Lemma in_generateSmaSignals (labels : list string) (prices : list num)
      (fast slow : nat) (sg : Signal) :
  In sg (generateSmaSignals labels prices fast slow) <->
  (1 <= s_idx sg < List.length prices)%nat
  /\ In sg (signal_at labels prices (sma prices fast) (sma prices slow)
                      (s_idx sg)).
Proof.
  unfold generateSmaSignals. rewrite in_flat_map. split.
  - intros [i [Hi Hsg]]. apply in_seq in Hi.
    pose proof Hsg as Hsg'. apply signal_at_emits in Hsg'.
    destruct Hsg' as [E _]. rewrite E in *. cbn [s_idx] in *.
    split; [lia | exact Hsg].
  - intros [Hi Hsg]. exists (s_idx sg). split; [|exact Hsg].
    apply in_seq. lia.
Qed.

Lemma emits_iff (labels : list string) (prices : list num)
      (fast slow : nat) (side : Side) (i : nat) :
  emits side i (generateSmaSignals labels prices fast slow) <->
  (1 <= i < List.length prices)%nat
  /\ guard (sma prices fast) (sma prices slow) i = true
  /\ match side with
     | buy => crosses_up (sma prices fast) (sma prices slow) i = true
     | sell => crosses_down (sma prices fast) (sma prices slow) i = true
     end.
Proof.
  unfold emits. split.
  - intros [sg [Hsg [Hty Hix]]]. apply in_generateSmaSignals in Hsg.
    rewrite Hix in Hsg. destruct Hsg as [Hi Hsg].
    apply signal_at_emits in Hsg. rewrite Hty in Hsg.
    destruct Hsg as [_ [G C]]. auto.
  - intros [Hi [G C]].
    exists (mkSignal side i (nth i prices NaN) (nth_error labels i)).
    split; [|split; reflexivity].
    apply in_generateSmaSignals. cbn [s_idx]. split; [exact Hi|].
    apply signal_at_emits. cbn [s_type]. auto.
Qed.

(** C1, as the code has it: a Buy is emitted at index [i] exactly when
    [1 <= i < N], the four averages [fast[i-1]], [slow[i-1]], [fast[i]],
    [slow[i]] are truthy (defined, and neither 0 nor [NaN]),
    [fast[i-1] <= slow[i-1]] and [fast[i] > slow[i]]; a Sell exactly when
    they are truthy, [fast[i-1] >= slow[i-1]] and [fast[i] < slow[i]];
    every signal carries [prices[i]] and [labels[i]]; the signals come in
    strictly increasing index order. *)
Theorem crossover_signals :
  forall (labels : list string) (prices : list num) (fast slow : nat),
    let fastS := sma prices fast in
    let slowS := sma prices slow in
    let out := generateSmaSignals labels prices fast slow in
    (forall i, emits buy i out <->
               (1 <= i < List.length prices)%nat
               /\ guard fastS slowS i = true
               /\ crosses_up fastS slowS i = true)
    /\ (forall i, emits sell i out <->
                  (1 <= i < List.length prices)%nat
                  /\ guard fastS slowS i = true
                  /\ crosses_down fastS slowS i = true)
    /\ (forall sg, In sg out ->
                   s_price sg = nth (s_idx sg) prices NaN
                   /\ s_date sg = nth_error labels (s_idx sg))
    /\ StronglySorted Nat.lt (map s_idx out).
Proof.
  intros labels prices fast slow fastS slowS out.
  split; [intros i; apply (emits_iff labels prices fast slow buy)|].
  split; [intros i; apply (emits_iff labels prices fast slow sell)|].
  split.
  - intros sg Hsg. apply in_generateSmaSignals in Hsg.
    destruct Hsg as [_ Hsg].
    apply signal_at_emits in Hsg. destruct Hsg as [E _].
    rewrite E at 1 3. cbn [s_price s_date]. split; reflexivity.
  - apply signals_sorted_from.
    + intros i sg Hsg. apply signal_at_emits in Hsg.
      destruct Hsg as [E _]. rewrite E. reflexivity.
    + intros i. apply signal_at_length.
Qed.

(** C1 fails when an average is 0: on the prices [0, 0, 1] with windows
    1 and 2 the four averages at indices 1 and 2 are defined, with
    [fast[1] = 0 <= slow[1] = 0] and [fast[2] = 1 > slow[2] = 1/2], but
    [fast[1]] is falsy and no signal is emitted. *)
Lemma zero_average_suppresses_buy :
  let prices := map of_Z [0; 0; 1]%Z in
  let fastS := sma prices 1 in
  let slowS := sma prices 2 in
  (defined (at_ fastS 1) /\ defined (at_ slowS 1)
   /\ defined (at_ fastS 2) /\ defined (at_ slowS 2))
  /\ opt_cmp le (at_ fastS 1) (at_ slowS 1) = true
  /\ opt_cmp gt (at_ fastS 2) (at_ slowS 2) = true
  /\ ~ emits buy 2 (generateSmaSignals ["a"; "b"; "c"]%string prices 1 2).
Proof.
  cbv zeta. repeat split; try discriminate.
  intros [sg [H _]]. vm_compute in H. exact H.
Qed.

Lemma crossover_signals_witness :
  emits buy 4
        (generateSmaSignals []
           (map of_Z [10; 9; 8; 9; 10; 11; 10; 9; 8; 7]%Z) 2 4).
Proof.
  apply (proj1 (crossover_signals []
                  (map of_Z [10; 9; 8; 9; 10; 11; 10; 9; 8; 7]%Z) 2 4) 4%nat).
  split; [simpl; lia|]. split; reflexivity.
Defined.

(** ** The moving average *)

Lemma Qsum_snoc (l : list Q) (x : Q) : (Qsum (l ++ [x]) == Qsum l + x)%Q.
Proof.
  induction l as [|y l IH]; simpl.
  - lra.
  - rewrite IH. lra.
Qed.

Lemma slice_snoc (a b : nat) (l : list Q) :
  (a <= b < List.length l)%nat ->
  slice a (S b) l = slice a b l ++ [nth b l 0%Q].
Proof.
  unfold slice. revert a b. induction l as [|x l IH]; intros a b H; simpl in H.
  - lia.
  - destruct a as [|a].
    + simpl skipn. rewrite !Nat.sub_0_r. clear IH.
      revert x l H. induction b as [|b IHb]; intros x l H.
      * reflexivity.
      * destruct l as [|y l]; simpl in H; [lia|].
        change (firstn (S (S b)) (x :: y :: l))
          with (x :: firstn (S b) (y :: l)).
        rewrite (IHb y l) by (simpl; lia). reflexivity.
    + destruct b as [|b]; [lia|]. simpl skipn.
      replace (S (S b) - S a)%nat with (S b - a)%nat by lia.
      replace (S b - S a)%nat with (b - a)%nat by lia.
      rewrite IH by lia. reflexivity.
Qed.

Lemma slice_cons (a b : nat) (l : list Q) :
  (a < b)%nat -> (a < List.length l)%nat ->
  slice a b l = nth a l 0%Q :: slice (S a) b l.
Proof.
  unfold slice. revert a b. induction l as [|x l IH]; intros a b H1 H2;
    simpl in H2.
  - lia.
  - destruct a as [|a].
    + simpl skipn. destruct b as [|b]; [lia|].
      rewrite Nat.sub_0_r. simpl. rewrite Nat.sub_0_r. reflexivity.
    + destruct b as [|b]; [lia|]. simpl skipn.
      replace (S b - S a)%nat with (b - a)%nat by lia.
      rewrite (IH a b) by lia. simpl.
      replace (b - a)%nat with (S b - S (S a) + 1)%nat at 1 by lia.
      replace (b - S a)%nat with (S b - S (S a))%nat by lia.
      reflexivity.
Qed.

Lemma sma_loop_length (prices : list num) (W : nat) (rest : list num) :
  forall i sum, List.length (sma_loop prices W i rest sum) = List.length rest.
Proof.
  induction rest as [|p rest IH]; intros i sum; simpl; [|rewrite IH];
    reflexivity.
Qed.

Lemma of_nat_pos (W : nat) : (1 <= W)%nat -> (0 < inject_Z (Z.of_nat W))%Q.
Proof. intros H. rewrite <- (Zlt_Qlt 0). lia. Qed.

Lemma nth_map_Fin (qs : list Q) (n : nat) :
  (n < List.length qs)%nat -> nth n (map Fin qs) NaN = Fin (nth n qs 0%Q).
Proof.
  intros H. rewrite (nth_indep _ NaN (Fin 0%Q)) by (rewrite length_map; lia).
  apply map_nth.
Qed.

Lemma skipn_cons_nth (qs : list Q) (i : nat) (q : Q) (rest : list Q) :
  skipn i qs = q :: rest -> nth i qs 0%Q = q /\ skipn (S i) qs = rest.
Proof.
  revert i. induction qs as [|x qs IH]; intros i H.
  - destruct i; discriminate H.
  - destruct i as [|i]; simpl in *.
    + injection H as -> ->. split; reflexivity.
    + apply IH. exact H.
Qed.

(** The loop invariant of [sma]: before index [i] the running sum is the
    sum of the last [min i W] prices. *)
Lemma sma_loop_spec (qs : list Q) (W : nat) :
  (1 <= W)%nat ->
  forall (rest : list Q) (i : nat) (s : Q),
    skipn i qs = rest ->
    (i + List.length rest = List.length qs)%nat ->
    (s == Qsum (slice (i - W) i qs))%Q ->
    forall j, (j < List.length rest)%nat ->
      ((i + j + 1 < W)%nat ->
       nth j (sma_loop (map Fin qs) W i (map Fin rest) (Fin s)) None = None)
      /\ ((W <= i + j + 1)%nat ->
          exists m,
            nth j (sma_loop (map Fin qs) W i (map Fin rest) (Fin s)) None
            = Some (Fin m)
            /\ (m == Qsum (slice (i + j + 1 - W) (i + j + 1) qs)
                     / inject_Z (Z.of_nat W))%Q).
Proof.
  intros HW. induction rest as [|q rest IH]; intros i s Hsk Hlen Hs j Hj;
    simpl in Hj; [lia|].
  simpl in Hlen.
  destruct (skipn_cons_nth _ _ Hsk) as [Hq Hsk'].
  cbn [map sma_loop].
  (* the running sum after the update at index [i] *)
  assert (Hsum2 :
    exists s2,
      (if (W <=? i)%nat
       then (Fin s + Fin q - nth (i - W) (map Fin qs) NaN)%num
       else (Fin s + Fin q)%num) = Fin s2
      /\ (s2 == Qsum (slice (S i - W) (S i) qs))%Q).
  { destruct (W <=? i)%nat eqn:E.
    - apply Nat.leb_le in E.
      rewrite nth_map_Fin by lia.
      exists (s + q - nth (i - W) qs 0)%Q. split; [reflexivity|].
      rewrite Hs. rewrite (slice_cons (a := i - W) (b := i)) by lia.
      replace (S i - W)%nat with (S (i - W)) by lia.
      rewrite (slice_snoc (a := S (i - W)) (b := i)) by lia.
      rewrite Qsum_snoc, Hq. simpl. lra.
    - apply Nat.leb_gt in E.
      exists (s + q)%Q. split; [reflexivity|].
      rewrite Hs. replace (i - W)%nat with 0%nat by lia.
      replace (S i - W)%nat with 0%nat by lia.
      rewrite (slice_snoc (a := 0) (b := i)) by lia.
      rewrite Qsum_snoc, Hq. reflexivity. }
  destruct Hsum2 as [s2 [-> Hs2]].
  destruct j as [|j].
  - cbn [nth]. replace (i + 0 + 1)%nat with (S i) by lia.
    replace (i + 1)%nat with (S i) by lia. split; intros H.
    + apply Nat.leb_gt in H. rewrite H. reflexivity.
    + apply Nat.leb_le in H. rewrite H.
      unfold of_nat, of_Z. rewrite div_fin_pos by (apply of_nat_pos; exact HW).
      eexists. split; [reflexivity|]. rewrite Hs2. reflexivity.
  - cbn [nth].
    replace (i + S j + 1)%nat with (S i + j + 1)%nat by lia.
    apply IH; trivial; lia.
Qed.

Lemma slice_window (qs : list Q) (W i : nat) :
  (W <= i + 1)%nat ->
  slice (i + 1 - W) (i + 1) qs = firstn W (skipn (i + 1 - W) qs).
Proof.
  intros H. unfold slice. f_equal. lia.
Qed.

Lemma Forall_slice (P : Q -> Prop) (l : list Q) (W k : nat) :
  Forall P l -> Forall P (firstn W (skipn k l)).
Proof.
  intros H. rewrite Forall_forall in *. intros x Hx. apply H.
  rewrite <- (firstn_skipn k l). apply in_or_app. right.
  rewrite <- (firstn_skipn W (skipn k l)). apply in_or_app. left. exact Hx.
Qed.

(** In exact arithmetic, without the rounding of the doubles, entry [i]
    of the moving average over a window [W >= 1] of finite prices is the
    mean of the window. *)
Lemma sma_entry (qs : list Q) (W : nat) :
  (1 <= W)%nat ->
  forall i, (i < List.length qs)%nat ->
    ((i + 1 < W)%nat -> at_ (sma (map Fin qs) W) i = None)
    /\ ((W <= i + 1)%nat ->
        exists m, at_ (sma (map Fin qs) W) i = Some (Fin m)
                  /\ (m == window_mean qs W i)%Q).
Proof.
  intros HW i Hi. unfold sma, at_, zero.
  destruct (@sma_loop_spec qs W HW qs 0%nat 0%Q eq_refl eq_refl
              ltac:(reflexivity) i Hi) as [Hn Hs].
  split; [exact Hn|]. intros H. destruct (Hs H) as [m [E Hm]].
  exists m. split; [exact E|]. rewrite Hm. unfold window_mean.
  simpl (0 + i + 1)%nat. rewrite slice_window by exact H. reflexivity.
Qed.

(** The running sum carried by the loop of [sma]. *)
Lemma running_sum_eq (prices : list num) (W i : nat) :
  running_sum prices W i
  = let added := (match i with
                  | O => zero
                  | S k => running_sum prices W k
                  end + nth i prices NaN)%num in
    if (W <=? i)%nat then (added - nth (i - W) prices NaN)%num else added.
Proof. destruct i; reflexivity. Qed.

Lemma skipn_nth_cons (prices : list num) (i : nat) (p : num)
      (rest : list num) :
  skipn i prices = p :: rest ->
  nth i prices NaN = p /\ skipn (S i) prices = rest
  /\ (i < List.length prices)%nat.
Proof.
  revert i. induction prices as [|x prices IH]; intros i H.
  - destruct i; discriminate H.
  - destruct i as [|i]; simpl in *.
    + injection H as -> ->. repeat split. lia.
    + destruct (IH i H) as [E1 [E2 L]]. repeat split; trivial. lia.
Qed.

Lemma sma_loop_running (prices : list num) (W : nat) :
  forall (rest : list num) (i : nat) (sum : num),
    skipn i prices = rest ->
    sum = match i with
          | O => zero
          | S k => running_sum prices W k
          end ->
    forall j, (j < List.length rest)%nat ->
      nth j (sma_loop prices W i rest sum) None
      = if (W <=? i + j + 1)%nat
        then Some (running_sum prices W (i + j) / of_nat W)%num
        else None.
Proof.
  induction rest as [|p rest IH]; intros i sum Hsk Hsum j Hj; simpl in Hj;
    [lia|].
  destruct (skipn_nth_cons _ _ Hsk) as [Hp [Hsk' _]].
  cbn [sma_loop].
  assert (Hrun : (if (W <=? i)%nat
                  then (sum + p - nth (i - W) prices NaN)%num
                  else (sum + p)%num) = running_sum prices W i).
  { rewrite running_sum_eq. cbv zeta. rewrite Hp, <- Hsum. reflexivity. }
  rewrite Hrun.
  destruct j as [|j]; cbn [nth].
  - rewrite !Nat.add_0_r. reflexivity.
  - replace (i + S j)%nat with (S i + j)%nat by lia.
    apply IH; trivial. lia.
Qed.

Lemma firstn_snoc_nth (prices : list num) (n : nat) :
  (n < List.length prices)%nat ->
  firstn (S n) prices = firstn n prices ++ [nth n prices NaN].
Proof.
  revert n. induction prices as [|x prices IH]; intros n H; simpl in H.
  - lia.
  - destruct n as [|n]; [reflexivity|].
    change (firstn (S (S n)) (x :: prices))
      with (x :: firstn (S n) prices).
    rewrite IH by lia. reflexivity.
Qed.

(** Until the window is full the running sum is the sum, from left to
    right, of the prices met so far. *)
Lemma running_sum_first_window (prices : list num) (W : nat) :
  forall i, (i < W)%nat -> (i < List.length prices)%nat ->
    running_sum prices W i = sum_list (firstn (S i) prices).
Proof.
  induction i as [|i IH]; intros HW HN; rewrite running_sum_eq; cbv zeta;
    replace (W <=? _)%nat with false by (symmetry; apply Nat.leb_gt; lia).
  - destruct prices as [|x prices]; [simpl in HN; lia|]. reflexivity.
  - rewrite IH by lia. rewrite (@firstn_snoc_nth prices (S i)) by lia.
    unfold sum_list. rewrite fold_left_app. reflexivity.
Qed.

(** C6, as the code has it: for every price sequence and window, [sma]
    returns as many entries as prices; entry [i] is [null] exactly when
    [i < W - 1]; every other entry is the running sum at [i] divided by
    [W], where the running sum adds the incoming price and, once the
    window is full, subtracts the price leaving it; and the first such
    entry, at [W - 1], is the sum of the first [W] prices, added from
    left to right, divided by [W]. *)
Theorem sma_running_mean :
  forall (prices : list num) (W : nat),
    let out := sma prices W in
    List.length out = List.length prices
    /\ (forall i, (i < List.length prices)%nat ->
                  (at_ out i = None <-> (i + 1 < W)%nat))
    /\ (forall i, (i < List.length prices)%nat -> (W <= i + 1)%nat ->
                  at_ out i = Some (running_sum prices W i / of_nat W)%num)
    /\ ((1 <= W <= List.length prices)%nat ->
        at_ out (W - 1)
        = Some (sum_list (firstn W prices) / of_nat W)%num).
Proof.
  intros prices W out.
  assert (Hnth : forall i, (i < List.length prices)%nat ->
            at_ out i = if (W <=? i + 1)%nat
                        then Some (running_sum prices W i / of_nat W)%num
                        else None).
  { intros i Hi. unfold out, sma, at_.
    apply (@sma_loop_running prices W prices 0 zero eq_refl eq_refl i Hi). }
  split; [|split; [|split]].
  - unfold out, sma. apply sma_loop_length.
  - intros i Hi. rewrite (Hnth i Hi).
    destruct (W <=? i + 1)%nat eqn:E.
    + apply Nat.leb_le in E. split; [discriminate | lia].
    + apply Nat.leb_gt in E. split; [intros _; exact E | reflexivity].
  - intros i Hi HW. rewrite (Hnth i Hi).
    replace (W <=? i + 1)%nat with true by (symmetry; apply Nat.leb_le; lia).
    reflexivity.
  - intros [H1 H2]. rewrite Hnth by lia.
    replace (W <=? W - 1 + 1)%nat with true
      by (symmetry; apply Nat.leb_le; lia).
    rewrite running_sum_first_window by lia.
    replace (S (W - 1)) with W by lia. reflexivity.
Qed.

Lemma sma_running_mean_witness :
  at_ (sma (map of_Z [10; 9; 8; 9]%Z) 2) (2 - 1)
  = Some (sum_list (firstn 2 (map of_Z [10; 9; 8; 9]%Z)) / of_nat 2)%num.
Proof.
  refine (proj2 (proj2 (proj2
            (@sma_running_mean (map of_Z [10; 9; 8; 9]%Z) 2))) _).
  simpl. lia.
Defined.

(** C6 fails on the doubles the code runs on: the entries are the
    running sum divided by [W], rounded at every step, which is not
    always the mean.  On [[0.1, 0.1, 0.1]] and [W = 3] the only defined
    entry is [0.10000000000000002], not the constant [0.1]; on eight
    prices [2.9] and [W = 5] the entry at index 4 is [2.9] and the
    entries from index 5 on are [2.8999999999999995]. *)
Lemma sma_mean_rounding :
  F64.sma [F64.tenth; F64.tenth; F64.tenth] 3
  = [None; None; Some 0x1.999999999999bp-4%float]
  /\ PrimFloat.eqb 0x1.999999999999bp-4 F64.tenth = false
  /\ F64.sma (repeat 0x1.7333333333333p+1%float 8) 5
     = [None; None; None; None;
        Some 0x1.7333333333333p+1%float; Some 0x1.7333333333332p+1%float;
        Some 0x1.7333333333332p+1%float; Some 0x1.7333333333332p+1%float]
  /\ PrimFloat.eqb 0x1.7333333333332p+1 0x1.7333333333333p+1 = false.
Proof. repeat split; vm_compute; reflexivity. Qed.

(** ** Crossover signals on strictly positive prices, in exact arithmetic *)

Lemma Qsum_pos (l : list Q) :
  l <> [] -> Forall (fun q => (0 < q)%Q) l -> (0 < Qsum l)%Q.
Proof.
  intros Hne Hall. destruct Hall as [|q l Hq Hl]; [contradiction|].
  clear Hne. revert q Hq. induction Hl as [|q' l Hq' _ IH]; intros q Hq.
  - simpl. lra.
  - specialize (IH q' Hq'). cbn [Qsum fold_right] in *. lra.
Qed.

Lemma window_mean_pos (qs : list Q) (W i : nat) :
  (1 <= W <= i + 1)%nat -> (i < List.length qs)%nat ->
  Forall (fun q => (0 < q)%Q) qs -> (0 < window_mean qs W i)%Q.
Proof.
  intros [HW Hi] HN Hall. unfold window_mean.
  apply Qlt_shift_div_l; [apply of_nat_pos; exact HW|].
  rewrite Qmult_0_l. apply Qsum_pos.
  - intros E. apply (f_equal (@List.length _)) in E.
    rewrite length_firstn, length_skipn in E. simpl in E. lia.
  - apply Forall_slice. exact Hall.
Qed.

(** In exact arithmetic, on strictly positive prices an average is
    truthy as soon as it is defined. *)
Lemma sma_truthy_defined (qs : list Q) (W i : nat) :
  (1 <= W)%nat -> Forall (fun q => (0 < q)%Q) qs ->
  truthy_opt (at_ (sma (map Fin qs) W) i) = true
  <-> defined (at_ (sma (map Fin qs) W) i).
Proof.
  intros HW Hall. unfold defined.
  destruct (Nat.lt_ge_cases i (List.length qs)) as [Hi | Hi].
  - destruct (sma_entry qs HW Hi) as [Hn Hs].
    destruct (Nat.lt_ge_cases (i + 1) W) as [L | G].
    + rewrite (Hn L). simpl. split; [discriminate | congruence].
    + destruct (Hs G) as [m [E Hm]]. rewrite E. simpl.
      pose proof (@window_mean_pos qs W i ltac:(lia) Hi Hall) as Hpos.
      split; [discriminate|]. intros _.
      destruct (Qeq_bool m 0) eqn:B; [|reflexivity].
      qprop. exfalso. lra.
  - unfold at_, sma. rewrite nth_overflow.
    + simpl. split; [discriminate | congruence].
    + rewrite sma_loop_length, length_map. exact Hi.
Qed.

(** In exact arithmetic, on strictly positive prices and windows of at
    least 1, the signals are those of the crossover conditions on defined
    averages, as the specification words them.  (On doubles a running
    sum can cancel to 0, as for the prices [1e16, 1] and a window of 1.) *)
Lemma crossover_positive_prices (labels : list string) (qs : list Q)
      (fast slow : nat) :
  (1 <= fast)%nat -> (1 <= slow)%nat ->
  Forall (fun q => (0 < q)%Q) qs ->
  let fastS := sma (map Fin qs) fast in
  let slowS := sma (map Fin qs) slow in
  let out := generateSmaSignals labels (map Fin qs) fast slow in
  forall i, (1 <= i)%nat ->
    (emits buy i out <->
     defined (at_ fastS (i - 1)) /\ defined (at_ slowS (i - 1))
     /\ defined (at_ fastS i) /\ defined (at_ slowS i)
     /\ crosses_up fastS slowS i = true)
    /\ (emits sell i out <->
        defined (at_ fastS (i - 1)) /\ defined (at_ slowS (i - 1))
        /\ defined (at_ fastS i) /\ defined (at_ slowS i)
        /\ crosses_down fastS slowS i = true).
Proof.
  intros HF HS Hall fastS slowS out i Hi.
  assert (Hg : guard fastS slowS i = true <->
               defined (at_ fastS (i - 1)) /\ defined (at_ slowS (i - 1))
               /\ defined (at_ fastS i) /\ defined (at_ slowS i)).
  { unfold guard, fastS, slowS. rewrite !andb_true_iff.
    rewrite !sma_truthy_defined by assumption. tauto. }
  assert (Hlen : defined (at_ fastS i) -> (i < List.length (map Fin qs))%nat).
  { unfold defined, at_, fastS, sma. intros H.
    destruct (Nat.lt_ge_cases i (List.length (map Fin qs))) as [L | G];
      [exact L|].
    exfalso. apply H. apply nth_overflow. rewrite sma_loop_length. exact G. }
  unfold out. split; rewrite emits_iff; fold fastS slowS; rewrite Hg;
    intuition lia.
Qed.

(** ** The equity curve *)

Lemma equity_loop_length (trs : list Trade) (prices : list num)
      (labels : list string) :
  forall i st,
    List.length (equity_loop trs prices labels i st) = List.length labels.
Proof.
  induction labels as [|d labels IH]; intros i st; simpl; [|rewrite IH];
    reflexivity.
Qed.

Lemma equity_loop_dates (trs : list Trade) (prices : list num)
      (labels : list string) :
  forall i st, map e_date (equity_loop trs prices labels i st) = labels.
Proof.
  induction labels as [|d labels IH]; intros i st; simpl; [|rewrite IH];
    reflexivity.
Qed.

Lemma equity_loop_app (trs : list Trade) (prices : list num)
      (l1 l2 : list string) :
  forall i st,
    equity_loop trs prices (l1 ++ l2) i st
    = equity_loop trs prices l1 i st
      ++ equity_loop trs prices l2 (i + List.length l1)
                     (replay_after trs l1 st).
Proof.
  induction l1 as [|d l1 IH]; intros i st; simpl.
  - rewrite Nat.add_0_r. reflexivity.
  - rewrite IH. replace (S i + List.length l1)%nat
      with (i + S (List.length l1))%nat by lia. reflexivity.
Qed.

Lemma equity_loop_nth (trs : list Trade) (prices : list num)
      (labels : list string) :
  forall n i st date,
    nth_error labels n = Some date ->
    nth_error (equity_loop trs prices labels i st) n
    = Some (let st' := replay_after trs (firstn (S n) labels) st in
            mkEquityPoint date
              (rp_cash st' + rp_position st' * mark_price prices (i + n))%num).
Proof.
  induction labels as [|d labels IH]; intros n i st date H.
  - destruct n; discriminate H.
  - destruct n as [|n]; simpl in H.
    + injection H as ->. simpl. rewrite Nat.add_0_r. reflexivity.
    + cbn [equity_loop nth_error]. rewrite (IH n (S i) _ date H).
      replace (S i + n)%nat with (i + S n)%nat by lia. reflexivity.
Qed.

(** The cursor never moves back. *)
Lemma apply_trades_index (rest : list Trade) (date : string) :
  forall st,
    (rp_tradeIndex st <= rp_tradeIndex (apply_trades rest date st)
     <= rp_tradeIndex st + List.length rest)%nat.
Proof.
  induction rest as [|t rest IH]; intros st; simpl.
  - lia.
  - destruct (Label_eqb (t_date t) (Some date)); [|lia].
    destruct (t_type t); match goal with |- context [apply_trades rest date ?s] =>
      specialize (IH s) end; simpl in IH; lia.
Qed.

Lemma replay_step_index (trs : list Trade) (st : Replay) (date : string) :
  (rp_tradeIndex st <= rp_tradeIndex (replay_step trs st date))%nat.
Proof. unfold replay_step. apply apply_trades_index. Qed.

Lemma replay_after_index (trs : list Trade) (labels : list string) :
  forall st, (rp_tradeIndex st <= rp_tradeIndex (replay_after trs labels st))%nat.
Proof.
  induction labels as [|d labels IH]; intros st; simpl; [lia|].
  etransitivity; [apply (replay_step_index trs st d)|apply IH].
Qed.

(** Cutting the log after the trades that the loop consumes changes
    nothing. *)
Lemma apply_trades_firstn (rest : list Trade) (date : string) :
  forall n st,
    (rp_tradeIndex (apply_trades rest date st) <= rp_tradeIndex st + n)%nat ->
    apply_trades (firstn n rest) date st = apply_trades rest date st.
Proof.
  induction rest as [|t rest IH]; intros n st H.
  - rewrite firstn_nil. reflexivity.
  - destruct n as [|n]; simpl in *.
    + destruct (Label_eqb (t_date t) (Some date)); [|reflexivity].
      exfalso.
      destruct (t_type t); match type of H with
        context [apply_trades rest date ?s] =>
          pose proof (apply_trades_index rest date s) as M end;
        simpl in M; lia.
    + destruct (Label_eqb (t_date t) (Some date)); [|reflexivity].
      destruct (t_type t); apply IH; simpl; lia.
Qed.

Lemma skipn_firstn_sub (A : Type) (l : list A) (k n : nat) :
  skipn k (firstn n l) = firstn (n - k) (skipn k l).
Proof.
  revert k n. induction l as [|x l IH]; intros k n.
  - rewrite firstn_nil, !skipn_nil, firstn_nil. reflexivity.
  - destruct n as [|n]; [destruct k; reflexivity|].
    destruct k as [|k]; [reflexivity|]. simpl. apply IH.
Qed.

Lemma replay_step_firstn (trs : list Trade) (K : nat) (st : Replay)
      (date : string) :
  (rp_tradeIndex (replay_step trs st date) <= K)%nat ->
  replay_step (firstn K trs) st date = replay_step trs st date.
Proof.
  unfold replay_step. intros H. rewrite skipn_firstn_sub.
  apply apply_trades_firstn.
  pose proof (apply_trades_index (skipn (rp_tradeIndex st) trs) date st). lia.
Qed.

Lemma replay_after_firstn (trs : list Trade) (K : nat) (labels : list string) :
  forall st,
    (rp_tradeIndex (replay_after trs labels st) <= K)%nat ->
    replay_after (firstn K trs) labels st = replay_after trs labels st.
Proof.
  induction labels as [|d labels IH]; intros st H; simpl in *; [reflexivity|].
  pose proof (replay_after_index trs labels (replay_step trs st d)) as M.
  rewrite replay_step_firstn by lia. apply IH. exact H.
Qed.

Lemma equity_loop_firstn (trs : list Trade) (prices : list num) (K : nat)
      (labels : list string) :
  forall i st,
    (rp_tradeIndex (replay_after trs labels st) <= K)%nat ->
    equity_loop (firstn K trs) prices labels i st
    = equity_loop trs prices labels i st.
Proof.
  induction labels as [|d labels IH]; intros i st H; simpl in *; [reflexivity|].
  pose proof (replay_after_index trs labels (replay_step trs st d)) as M.
  rewrite replay_step_firstn by lia. rewrite IH by exact H. reflexivity.
Qed.

Lemma Label_eqb_Some (a : Label) (d : string) :
  Label_eqb a (Some d) = true <-> a = Some d.
Proof.
  destruct a as [x|]; simpl.
  - rewrite String.eqb_eq. split; congruence.
  - split; discriminate.
Qed.

(** The [while] loop consumes the leading trades dated [date] and stops
    at the first trade with another date. *)
Lemma apply_trades_run (date : string) (pre post : list Trade) :
  Forall (fun t => t_date t = Some date) pre ->
  (forall t, hd_error post = Some t -> t_date t <> Some date) ->
  forall st,
    apply_trades (pre ++ post) date st
    = mkReplay (fst (last_ledger pre (rp_cash st, rp_position st)))
               (snd (last_ledger pre (rp_cash st, rp_position st)))
               (rp_tradeIndex st + List.length pre).
Proof.
  intros Hpre Hpost. induction Hpre as [|t pre Ht _ IH]; intros st.
  - simpl. rewrite Nat.add_0_r. destruct post as [|t post]; simpl.
    + destruct st; reflexivity.
    + destruct (Label_eqb (t_date t) (Some date)) eqn:E.
      * apply Label_eqb_Some in E. exfalso. exact (Hpost t eq_refl E).
      * destruct st; reflexivity.
  - cbn [app apply_trades]. rewrite (proj2 (Label_eqb_Some _ _) Ht).
    destruct (t_type t); rewrite IH; cbn [rp_cash rp_position rp_tradeIndex];
      unfold last_ledger; simpl; f_equal; lia.
Qed.

Lemma replay_step_stuck (trs : list Trade) (st : Replay) (t : Trade)
      (d : string) :
  nth_error trs (rp_tradeIndex st) = Some t ->
  t_date t <> Some d ->
  replay_step trs st d = st.
Proof.
  intros Hn Hd. unfold replay_step.
  destruct (nth_error_split trs _ Hn) as [l1 [l2 [E L]]].
  rewrite E at 1. rewrite <- L.
  rewrite skipn_app, Nat.sub_diag, skipn_all. simpl.
  destruct (Label_eqb (t_date t) (Some d)) eqn:B; [|reflexivity].
  apply Label_eqb_Some in B. contradiction.
Qed.

Lemma replay_after_stuck (trs : list Trade) (st : Replay) (t : Trade)
      (labels : list string) :
  nth_error trs (rp_tradeIndex st) = Some t ->
  (forall d, In d labels -> t_date t <> Some d) ->
  replay_after trs labels st = st.
Proof.
  intros Hn. induction labels as [|d labels IH]; intros Hd; simpl.
  - reflexivity.
  - rewrite (@replay_step_stuck trs st t d Hn) by (apply Hd; left; reflexivity).
    apply IH. intros d' H. apply Hd. right. exact H.
Qed.

Lemma replay_step_exhausted (trs : list Trade) (st : Replay) (d : string) :
  (List.length trs <= rp_tradeIndex st)%nat -> replay_step trs st d = st.
Proof.
  intros H. unfold replay_step. rewrite skipn_all2 by exact H. reflexivity.
Qed.

Lemma equity_loop_stuck (trs : list Trade) (prices : list num) (st : Replay)
      (t : Trade) (labels : list string) :
  nth_error trs (rp_tradeIndex st) = Some t ->
  (forall d, In d labels -> t_date t <> Some d) ->
  forall i,
    equity_loop trs prices labels i st
    = equity_loop (firstn (rp_tradeIndex st) trs) prices labels i st.
Proof.
  intros Hn. induction labels as [|d labels IH]; intros Hd i; simpl.
  - reflexivity.
  - rewrite (@replay_step_stuck trs st t d Hn) by (apply Hd; left; reflexivity).
    rewrite replay_step_exhausted
      by (rewrite length_firstn; apply Nat.le_min_l).
    rewrite IH; [reflexivity|]. intros d' H. apply Hd. right. exact H.
Qed.

(** C10: the replay walks the log with one cursor.  At each timestamp it
    applies the maximal run of trades, starting at the cursor, that carry
    that timestamp, and the point of that timestamp is worth
    [cash + position * price] for the cash and position the replay has
    reached.  Once the walk of [l1] leaves the cursor on a trade [t]
    whose date occurs nowhere in the remaining labels [l2], the cursor
    stays there: every later point is computed from the cash and
    position reached at the end of [l1], and the curve is the one of the
    log cut before [t], so neither [t] nor any later trade is applied,
    whatever their dates. *)
Theorem cursor_stuck :
  forall (trs : list Trade) (prices : list num) (l1 l2 : list string)
         (c0 : num) (t : Trade),
    let st1 := replay_after trs l1 (init_replay c0) in
    nth_error trs (rp_tradeIndex st1) = Some t ->
    (forall d, In d l2 -> t_date t <> Some d) ->
    (forall st date pre post,
        skipn (rp_tradeIndex st) trs = pre ++ post ->
        Forall (fun t' => t_date t' = Some date) pre ->
        (forall t', hd_error post = Some t' -> t_date t' <> Some date) ->
        replay_step trs st date
        = mkReplay (fst (last_ledger pre (rp_cash st, rp_position st)))
                   (snd (last_ledger pre (rp_cash st, rp_position st)))
                   (rp_tradeIndex st + List.length pre))
    /\ replay_after trs (l1 ++ l2) (init_replay c0) = st1
    /\ (forall n date,
           nth_error (l1 ++ l2) n = Some date ->
           nth_error (computeEquityCurve trs prices (l1 ++ l2) c0) n
           = Some (let st' :=
                     if (n <? List.length l1)%nat
                     then replay_after trs (firstn (S n) l1) (init_replay c0)
                     else st1 in
                   mkEquityPoint date
                     (rp_cash st' + rp_position st' * mark_price prices n)%num))
    /\ computeEquityCurve trs prices (l1 ++ l2) c0
       = computeEquityCurve (firstn (rp_tradeIndex st1) trs) prices
                            (l1 ++ l2) c0.
Proof.
  intros trs prices l1 l2 c0 t st1 Hn Hd. split; [|split; [|split]].
  - intros st date pre post E Hpre Hpost. unfold replay_step. rewrite E.
    apply apply_trades_run; assumption.
  - unfold replay_after. rewrite fold_left_app.
    apply (@replay_after_stuck trs st1 t l2 Hn Hd).
  - intros n date Hdate. unfold computeEquityCurve.
    rewrite (@equity_loop_nth trs prices (l1 ++ l2) n 0 _ date Hdate).
    cbv zeta. rewrite Nat.add_0_l.
    assert (Hst : replay_after trs (firstn (S n) (l1 ++ l2)) (init_replay c0)
                  = if (n <? List.length l1)%nat
                    then replay_after trs (firstn (S n) l1) (init_replay c0)
                    else st1).
    { rewrite firstn_app. destruct (n <? List.length l1)%nat eqn:L.
      - apply Nat.ltb_lt in L.
        replace (S n - List.length l1)%nat with 0%nat by lia.
        rewrite firstn_O, app_nil_r. reflexivity.
      - apply Nat.ltb_ge in L. rewrite firstn_all2 by lia.
        unfold replay_after at 1. rewrite fold_left_app.
        apply (@replay_after_stuck trs st1 t _ Hn).
        intros d Hin. apply Hd.
        rewrite <- (firstn_skipn (S n - List.length l1) l2).
        apply in_or_app. left. exact Hin. }
    rewrite Hst. reflexivity.
  - unfold computeEquityCurve. rewrite !equity_loop_app.
    fold st1.
    rewrite (@replay_after_firstn trs (rp_tradeIndex st1) l1) by (fold st1; lia).
    rewrite (@equity_loop_firstn trs prices (rp_tradeIndex st1) l1)
      by (fold st1; lia).
    fold st1. f_equal.
    apply (@equity_loop_stuck trs prices st1 t l2 Hn Hd).
Qed.

Lemma cursor_stuck_witness :
  nth_error
    (computeEquityCurve
       [trade_on buy "a" 90 1; trade_on sell "x" 100 0; trade_on buy "c" 80 2]
       (map of_Z [10; 12; 15]%Z) (["a"]%string ++ ["b"; "c"]%string)
       (of_Z 100)) 2
  = Some (mkEquityPoint "c" (of_Z 90 + of_Z 1 * of_Z 15)%num).
Proof.
  refine (proj1 (proj2 (proj2 (@cursor_stuck
     [trade_on buy "a" 90 1; trade_on sell "x" 100 0; trade_on buy "c" 80 2]
     (map of_Z [10; 12; 15]%Z) ["a"]%string ["b"; "c"]%string (of_Z 100)
     (trade_on sell "x" 100 0) eq_refl _))) 2%nat "c"%string eq_refl).
  intros d [<- | [<- | []]]; discriminate.
Defined.

(** The run of the witness: the Buy dated ["a"] is applied and the
    points are worth [90 + 1 * price], that is 100, 102 and 105; the
    trade dated ["x"] stops the cursor at index 1, so the Buy dated
    ["c"], which would make the last point [80 + 2 * 15 = 110], is never
    applied. *)
Lemma cursor_stuck_run :
  let trs := [trade_on buy "a" 90 1; trade_on sell "x" 100 0;
              trade_on buy "c" 80 2] in
  let prices := map of_Z [10; 12; 15]%Z in
  computeEquityCurve trs prices ["a"; "b"; "c"]%string (of_Z 100)
  = [mkEquityPoint "a" (of_Z 100); mkEquityPoint "b" (of_Z 102);
     mkEquityPoint "c" (of_Z 105)]
  /\ replay_after trs ["a"; "b"; "c"]%string (init_replay (of_Z 100))
     = mkReplay (of_Z 90) (of_Z 1) 1
  /\ computeEquityCurve [trade_on buy "a" 90 1; trade_on buy "c" 80 2]
                        prices ["a"; "b"; "c"]%string (of_Z 100)
     = [mkEquityPoint "a" (of_Z 100); mkEquityPoint "b" (of_Z 102);
        mkEquityPoint "c" (of_Z 110)].
Proof. repeat split. Qed.

(** ** The equity curve against its description *)

Lemma aligned_dates (trs : list Trade) (labels : list string) :
  aligned trs labels ->
  Forall (fun t => exists d, t_date t = Some d /\ In d labels) trs.
Proof.
  induction 1 as [labels | t trs date labels Ht _ IH | trs date labels _ IH].
  - constructor.
  - constructor; [|exact IH]. exists date. split; [exact Ht | left; reflexivity].
  - eapply Forall_impl; [|exact IH]. simpl.
    intros t [d [Hd Hin]]. exists d. split; [exact Hd | right; exact Hin].
Qed.

Lemma aligned_split (trs : list Trade) (d : string) (ls : list string) :
  aligned trs (d :: ls) ->
  exists pre post,
    trs = pre ++ post
    /\ Forall (fun t => t_date t = Some d) pre
    /\ aligned post ls.
Proof.
  intros H. remember (d :: ls) as L eqn:EL. revert d ls EL.
  induction H as [labels | t trs date labels Ht _ IH | trs date labels H _];
    intros d ls EL.
  - exists [], []. repeat split; constructor.
  - injection EL as -> ->.
    destruct (IH d ls eq_refl) as [pre [post [E [Hpre Hpost]]]].
    exists (t :: pre), post. rewrite E. repeat split; trivial.
    constructor; assumption.
  - injection EL as -> ->. exists [], trs. repeat split; trivial.
Qed.

Lemma trades_on_all (d : string) (pre : list Trade) :
  Forall (fun t => t_date t = Some d) pre -> trades_on pre d = pre.
Proof.
  induction 1 as [|t pre Ht _ IH]; simpl; [reflexivity|].
  rewrite (proj2 (Label_eqb_Some _ _) Ht). f_equal. exact IH.
Qed.

Lemma trades_on_none (d : string) (l : list Trade) :
  Forall (fun t => t_date t <> Some d) l -> trades_on l d = [].
Proof.
  induction 1 as [|t l Ht _ IH]; simpl; [reflexivity|].
  destruct (Label_eqb (t_date t) (Some d)) eqn:E; [|exact IH].
  apply Label_eqb_Some in E. contradiction.
Qed.

Lemma equity_loop_by_timestamp (trs : list Trade) (prices : list num) :
  forall (ls : list string) (done rest : list Trade) (i : nat) (st : Replay),
    trs = done ++ rest ->
    rp_tradeIndex st = List.length done ->
    NoDup ls ->
    aligned rest ls ->
    Forall (fun t => forall d, In d ls -> t_date t <> Some d) done ->
    equity_loop trs prices ls i st
    = equity_by_timestamp trs prices ls i (rp_cash st, rp_position st).
Proof.
  induction ls as [|d ls IH]; intros done rest i st E Hix Hnd Hal Hdone.
  - reflexivity.
  - cbn [equity_loop equity_by_timestamp].
    destruct (aligned_split Hal) as [pre [post [Er [Hpre Hpost]]]].
    inversion Hnd as [|? ? Hnotin Hnd']; subst.
    assert (Hpost_d : Forall (fun t => t_date t <> Some d) post).
    { eapply Forall_impl; [|exact (aligned_dates Hpost)]. simpl.
      intros t [d' [E' Hin]] Ed. rewrite E' in Ed. injection Ed as ->.
      contradiction. }
    assert (Hstep : replay_step (done ++ pre ++ post) st d
                    = mkReplay
                        (fst (last_ledger pre (rp_cash st, rp_position st)))
                        (snd (last_ledger pre (rp_cash st, rp_position st)))
                        (rp_tradeIndex st + List.length pre)).
    { unfold replay_step.
      replace (skipn (rp_tradeIndex st) (done ++ pre ++ post))
        with (pre ++ post)
        by (rewrite Hix, skipn_app, Nat.sub_diag, skipn_all; reflexivity).
      apply apply_trades_run; [exact Hpre|].
      intros t Ht. destruct post as [|t' post]; [discriminate|].
      injection Ht as ->. inversion Hpost_d; assumption. }
    assert (Hon : trades_on (done ++ pre ++ post) d = pre).
    { unfold trades_on. rewrite !filter_app.
      fold (trades_on done d) (trades_on pre d) (trades_on post d).
      rewrite (trades_on_all Hpre), (trades_on_none Hpost_d).
      rewrite trades_on_none; [rewrite app_nil_r; reflexivity|].
      eapply Forall_impl; [|exact Hdone]. simpl.
      intros t Ht. apply Ht. left. reflexivity. }
    rewrite Hstep, Hon. cbn [rp_cash rp_position]. f_equal.
    rewrite (IH (done ++ pre) post).
    + cbn [rp_cash rp_position]. rewrite <- surjective_pairing. reflexivity.
    + rewrite <- app_assoc. reflexivity.
    + cbn [rp_tradeIndex]. rewrite length_app. lia.
    + exact Hnd'.
    + exact Hpost.
    + apply Forall_app. split.
      * eapply Forall_impl; [|exact Hdone]. simpl.
        intros t Ht d' Hin. apply Ht. right. exact Hin.
      * eapply Forall_impl; [|exact Hpre]. simpl.
        intros t Ht d' Hin Ed. rewrite Ht in Ed. injection Ed as ->.
        contradiction.
Qed.

(** C3, as the code has it: the curve has one point per label, in label
    order (so as many points as prices when the two arrays are aligned);
    the total of point [i] is [cash + position * price] for the cash and
    position left by the single-cursor replay of the labels up to [i];
    [price] is [prices[i]] when that is a non-zero number and otherwise
    the final price of the series (0 if that is missing or zero too);
    when the labels are distinct and the dates of the log follow the
    order of the labels, the replay applies at each timestamp exactly
    the trades that carry that timestamp. *)
Theorem equity_curve_shape :
  forall (trs : list Trade) (prices : list num) (labels : list string)
         (c0 : num),
    let curve := computeEquityCurve trs prices labels c0 in
    List.length curve = List.length labels
    /\ map e_date curve = labels
    /\ (List.length prices = List.length labels ->
        List.length curve = List.length prices)
    /\ (forall i date,
           nth_error labels i = Some date ->
           nth_error curve i
           = Some (let st := replay_after trs (firstn (S i) labels)
                                          (init_replay c0) in
                   mkEquityPoint date
                     (rp_cash st + rp_position st * mark_price prices i)%num))
    /\ (forall i p, nth_error prices i = Some p -> truthy p = true ->
                    mark_price prices i = p)
    /\ (forall i, truthy_opt (nth_error prices i) = false ->
                  mark_price prices i = or_else (last_elt prices) zero)
    /\ (NoDup labels -> aligned trs labels ->
        curve = equity_by_timestamp trs prices labels 0 (c0, zero)).
Proof.
  intros trs prices labels c0 curve. unfold curve, computeEquityCurve.
  split; [apply equity_loop_length|].
  split; [apply equity_loop_dates|].
  split; [intros E; rewrite E; apply equity_loop_length|].
  split; [intros i date H; apply (equity_loop_nth trs prices labels i 0 _ H)|].
  split; [|split].
  - intros i p Hp Ht. unfold mark_price. rewrite Hp. cbn [or_else].
    rewrite Ht. reflexivity.
  - intros i Ht. unfold mark_price.
    destruct (nth_error prices i) as [p|]; cbn in *; [|reflexivity].
    rewrite Ht. reflexivity.
  - intros Hnd Hal.
    apply (@equity_loop_by_timestamp trs prices labels [] trs 0
                                     (init_replay c0));
      trivial.
Qed.

Lemma equity_curve_shape_witness :
  computeEquityCurve [trade_on buy "a" 90 1; trade_on sell "c" 100 0]
                     (map of_Z [10; 11; 12]%Z) ["a"; "b"; "c"]%string
                     (of_Z 100)
  = equity_by_timestamp [trade_on buy "a" 90 1; trade_on sell "c" 100 0]
                        (map of_Z [10; 11; 12]%Z) ["a"; "b"; "c"]%string
                        0 (of_Z 100, zero).
Proof.
  refine (proj2 (proj2 (proj2 (proj2 (proj2 (proj2
    (@equity_curve_shape
       [trade_on buy "a" 90 1; trade_on sell "c" 100 0]
       (map of_Z [10; 11; 12]%Z) ["a"; "b"; "c"]%string (of_Z 100)))))))
    _ _).
  - repeat constructor; simpl; intuition discriminate.
  - apply aligned_here; [reflexivity|]. apply aligned_next, aligned_next.
    apply aligned_here; [reflexivity|]. apply aligned_nil.
Defined.

(** C3 fails on a log whose first trade is dated with no label: the
    cursor stays on it, so the trade dated ["b"] behind it is not applied
    at the point ["b"], whose total stays the starting cash 100 instead
    of [78 + 2 * 12 = 102]. *)
Lemma unmatched_trade_blocks_replay :
  let trs := [trade_on buy "a" 90 1; trade_on buy "b" 78 2] in
  let prices := map of_Z [12]%Z in
  e_total (nth 0 (computeEquityCurve trs prices ["b"]%string (of_Z 100))
                 (mkEquityPoint "" NaN))
  = Fin 100
  /\ trades_on trs "b" = [trade_on buy "b" 78 2]
  /\ e_total (nth 0 (equity_by_timestamp trs prices ["b"]%string 0
                                         (of_Z 100, zero))
                    (mkEquityPoint "" NaN))
     = Fin 102
  /\ computeEquityCurve trs prices ["b"]%string (of_Z 100)
     <> equity_by_timestamp trs prices ["b"]%string 0 (of_Z 100, zero).
Proof.
  cbv zeta. repeat split. discriminate.
Qed.

(** ** Degenerate inputs of the metrics *)

Lemma pctReturns_short (equity : list EquityPoint) :
  (List.length equity < 2)%nat -> pctReturns equity = [].
Proof.
  destruct equity as [|e [|e' l]]; simpl; intros H; try reflexivity. lia.
Qed.

Lemma fold_add_const (c : Q) (l : list num) :
  Forall (fin_eq c) l ->
  forall a : Q,
    exists s : Q,
      fold_left add l (Fin a) = Fin s
      /\ (s == a + inject_Z (Z.of_nat (List.length l)) * c)%Q.
Proof.
  induction 1 as [|x l [q [-> Hq]] _ IH]; intros a.
  - exists a. split; [reflexivity|]. simpl. unfold inject_Z. lra.
  - destruct (IH (a + q)%Q) as [s [E Hs]]. exists s. split; [exact E|].
    rewrite Hs. cbn [List.length]. rewrite Nat2Z.inj_succ. unfold Z.succ.
    rewrite inject_Z_plus. change (inject_Z 1) with 1%Q.
    set (N := inject_Z (Z.of_nat (List.length l))). clearbody N.
    rewrite Hq. ring.
Qed.

Lemma div_of_nat (a : Q) (n : nat) :
  (1 <= n)%nat -> (Fin a / of_nat n)%num = Fin (a / inject_Z (Z.of_nat n)).
Proof. intros H. apply div_fin_pos, of_nat_pos, H. Qed.

Section DegenerateMetrics.

Variable pow : num -> num -> num.
Variable sqrt : num -> num.

(** What the proofs use of [Math.sqrt] and [Math.pow]:
    [sqrt(0) = 0] and [pow(0, 2) = 0]. *)
Hypothesis sqrt_zero :
  forall q : Q, (q == 0)%Q -> (sqrt (Fin q) === zero)%num = true.
Hypothesis pow_zero_two :
  forall q : Q, (q == 0)%Q -> fin_eq 0 (pow (Fin q) (of_Z 2)).

Lemma sharpe_zero_std (returns : list num) (rf : num) :
  (pop_std pow sqrt returns === zero)%num = true ->
  sharpe pow sqrt returns rf = zero.
Proof.
  unfold sharpe. intros H.
  destruct (List.length returns =? 0)%nat; [reflexivity|].
  rewrite H. reflexivity.
Qed.

Lemma pop_std_identical (r : Q) (returns : list num) :
  (1 <= List.length returns)%nat ->
  Forall (fin_eq r) returns ->
  (pop_std pow sqrt returns === zero)%num = true.
Proof.
  intros Hn Hall. unfold pop_std, sum_list, zero.
  pose proof (of_nat_pos Hn) as Hpos.
  destruct (fold_add_const Hall 0) as [s [-> Hs]].
  rewrite div_of_nat by exact Hn.
  set (avg := (s / inject_Z (Z.of_nat (List.length returns)))%Q).
  assert (Havg : (avg == r)%Q).
  { unfold avg. rewrite Hs. field. lra. }
  assert (Hsq : Forall (fin_eq 0)
                       (map (fun x => pow (x - Fin avg)%num (of_Z 2)) returns)).
  { apply Forall_map. eapply Forall_impl; [|exact Hall]. simpl.
    intros x [q [-> Hq]]. apply pow_zero_two. rewrite Hq, Havg. lra. }
  destruct (fold_add_const Hsq 0) as [v [-> Hv]].
  rewrite div_of_nat by exact Hn. apply sqrt_zero.
  rewrite Hv. field. lra.
Qed.

(** C7, as the code has it: an equity curve of fewer than 2 points has
    no returns and a CAGR of 0; the Sharpe ratio is 0 on no returns, on
    returns whose population standard deviation is exactly 0, on a
    single finite return and on returns that are all 0; a single price
    that is not infinite ([NaN] and 0 included) and a starting cash
    that is not [NaN] give a curve of one point worth the starting cash,
    with CAGR 0 and Sharpe 0. *)
Theorem degenerate_metrics :
  (forall equity, (List.length equity < 2)%nat ->
                  pctReturns equity = [] /\ cagr pow equity = zero)
  /\ (forall rf, sharpe pow sqrt [] rf = zero)
  /\ (forall returns rf,
         (pop_std pow sqrt returns === zero)%num = true ->
         sharpe pow sqrt returns rf = zero)
  /\ (forall (r : Q) rf, sharpe pow sqrt [Fin r] rf = zero)
  /\ (forall returns rf,
         Forall (fin_eq 0) returns -> sharpe pow sqrt returns rf = zero)
  /\ (forall (date : string) (p c0 : num) (fast slow : nat) (sl fe rf : num),
         p <> PInf -> p <> NInf -> c0 <> NaN ->
         let prices := [p] in
         let labels := [date] in
         let signals := generateSmaSignals labels prices fast slow in
         let r := simulatePortfolio signals prices labels c0 sl fe in
         let curve := computeEquityCurve (r_trades r) prices labels
                                         (r_startingCash r) in
         exists total,
           curve = [mkEquityPoint date total]
           /\ (total === c0)%num = true
           /\ cagr pow curve = zero
           /\ sharpe pow sqrt (pctReturns curve) rf = zero).
Proof.
  split; [|split; [|split; [|split; [|split]]]].
  - intros equity H. split; [apply pctReturns_short; exact H|].
    unfold cagr. apply Nat.ltb_lt in H. rewrite H. reflexivity.
  - reflexivity.
  - apply sharpe_zero_std.
  - intros r rf. apply sharpe_zero_std.
    apply (@pop_std_identical r); [simpl; lia|].
    constructor; [|constructor]. exists r. split; reflexivity.
  - intros returns rf Hall. destruct returns as [|x returns].
    + reflexivity.
    + apply sharpe_zero_std. apply (@pop_std_identical 0); [simpl; lia|].
      exact Hall.
  - intros date p c0 fast slow sl fe rf Hp1 Hp2 Hc. cbv zeta.
    unfold generateSmaSignals. cbn [List.length Nat.sub seq flat_map].
    unfold simulatePortfolio. cbn [run_signals fold_left init_portfolio
      trades r_trades r_startingCash].
    unfold computeEquityCurve. cbn [equity_loop].
    eexists. split; [reflexivity|]. split; [|split; reflexivity].
    unfold replay_step, init_replay, mark_price, last_elt, or_else, zero.
    cbn [rp_tradeIndex skipn apply_trades rp_cash rp_position List.length
         Nat.sub nth_error].
    destruct p as [a| | |]; try contradiction;
      destruct c0 as [c| | |]; try contradiction;
      try (destruct (truthy (Fin a))); cbn; try reflexivity;
      apply Qeq_bool_iff; ring.
Qed.

End DegenerateMetrics.

Lemma sqrt_floor_zero (q : Q) :
  (q == 0)%Q -> (sqrt_floor (Fin q) === zero)%num = true.
Proof.
  destruct q as [a b]. unfold Qeq. simpl. intros H.
  assert (a = 0%Z) by lia. subst a. reflexivity.
Qed.

Lemma pow_int_zero_two (q : Q) :
  (q == 0)%Q -> fin_eq 0 (pow_int (Fin q) (of_Z 2)).
Proof.
  intros H. exists (q * (q * 1))%Q. split; [reflexivity|].
  rewrite H. reflexivity.
Qed.

Lemma degenerate_metrics_witness :
  exists total,
    computeEquityCurve
      (r_trades (simulatePortfolio
                   (generateSmaSignals ["a"]%string [NaN] 5 20)
                   [NaN] ["a"]%string (of_Z 100)
                   default_slippagePct default_feePct))
      [NaN] ["a"]%string
      (r_startingCash (simulatePortfolio
                         (generateSmaSignals ["a"]%string [NaN] 5 20)
                         [NaN] ["a"]%string (of_Z 100)
                         default_slippagePct default_feePct))
    = [mkEquityPoint "a" total]
    /\ (total === of_Z 100)%num = true
    /\ cagr pow_int [mkEquityPoint "a" total] = zero
    /\ sharpe pow_int sqrt_floor (pctReturns [mkEquityPoint "a" total]) zero
       = zero.
Proof.
  destruct (proj2 (proj2 (proj2 (proj2 (proj2
              (@degenerate_metrics pow_int sqrt_floor
                 sqrt_floor_zero pow_int_zero_two)))))
              "a"%string NaN (of_Z 100) 5%nat 20%nat
              default_slippagePct default_feePct zero
              ltac:(discriminate) ltac:(discriminate) ltac:(discriminate))
    as [total [E [H1 [H2 H3]]]].
  exists total. rewrite E in H2, H3. repeat split; assumption.
Defined.

(** C7 fails where it names identical returns: on the doubles the code
    runs on, the mean of [[0.1, 0.1, 0.1]] is [0.10000000000000002], the
    standard deviation is [2^-56], not 0, and the Sharpe ratio is about
    [1.14e17].  It fails as well for a single price [Infinity]: no
    position is held, yet the total [cash + 0 * Infinity] of the one
    point is [NaN], not the starting cash. *)
Lemma degenerate_metrics_fail :
  F64.sum_list [F64.tenth; F64.tenth; F64.tenth] = 0x1.3333333333334p-2%float
  /\ F64.pop_std [F64.tenth; F64.tenth; F64.tenth] = 0x1p-56%float
  /\ F64.sharpe [F64.tenth; F64.tenth; F64.tenth] PrimFloat.zero
     = 0x1.96632cbc9f781p+56%float
  /\ PrimFloat.eqb
       (F64.sharpe [F64.tenth; F64.tenth; F64.tenth] PrimFloat.zero)
       PrimFloat.zero = false
  /\ computeEquityCurve
       (r_trades (simulatePortfolio
                    (generateSmaSignals ["a"]%string [PInf] 5 20)
                    [PInf] ["a"]%string (of_Z 100)
                    default_slippagePct default_feePct))
       [PInf] ["a"]%string (of_Z 100)
     = [mkEquityPoint "a" NaN].
Proof. repeat split; vm_compute; reflexivity. Qed.

(** * Further properties *)

(** ** Chart markers *)

Lemma lt_not_ge (x y : num) : (x <? y)%num = true -> (y <=? x)%num = false.
Proof.
  destruct x, y; simpl; try congruence.
  intros H. qprop. lra.
Qed.

Lemma marker_at_cases (labels : list string) (prices : list num) (i : nat)
      (m : Marker) :
  In m (marker_at labels prices i) ->
  m_x m = nth_error labels i /\ m_y m = nth i prices NaN
  /\ match m_type m with
     | buy => (nth i prices NaN <? nth (i - 1) prices NaN)%num = true
              /\ (nth i prices NaN <? nth (i + 1) prices NaN)%num = true
     | sell => (nth i prices NaN >? nth (i - 1) prices NaN)%num = true
               /\ (nth i prices NaN >? nth (i + 1) prices NaN)%num = true
     end.
Proof.
  unfold marker_at. cbv zeta.
  destruct (_ && _) eqn:B.
  - intros [<- | []]. apply andb_prop in B. cbn. auto.
  - clear B. destruct (_ && _) eqn:S; [|simpl; intros []].
    intros [<- | []]. apply andb_prop in S. cbn. auto.
Qed.

(** At most 10 markers are returned, none for fewer than 3 prices; every
    marker sits at an interior index [i], carries [labels[i]] and
    [prices[i]], and is a Buy only at a strict local minimum and a Sell
    only at a strict local maximum. *)
Theorem markers_sound :
  forall (labels : list string) (prices : list num),
    let out := generateMarkersFromPrices labels prices in
    (List.length out <= 10)%nat
    /\ ((List.length prices < 3)%nat -> out = [])
    /\ forall m, In m out ->
         exists i, (1 <= i)%nat /\ (i + 1 < List.length prices)%nat
           /\ m_x m = nth_error labels i /\ m_y m = nth i prices NaN
           /\ match m_type m with
              | buy => (nth i prices NaN <? nth (i - 1) prices NaN)%num = true
                       /\ (nth i prices NaN <? nth (i + 1) prices NaN)%num
                          = true
              | sell => (nth i prices NaN >? nth (i - 1) prices NaN)%num = true
                        /\ (nth i prices NaN >? nth (i + 1) prices NaN)%num
                           = true
              end.
Proof.
  intros labels prices out. unfold out, generateMarkersFromPrices.
  split; [|split].
  - rewrite length_firstn. apply Nat.le_min_l.
  - intros H. replace (List.length prices - 2)%nat with 0%nat by lia.
    reflexivity.
  - intros m Hm.
    assert (Hin : In m (flat_map (marker_at labels prices)
                                 (seq 1 (List.length prices - 2)))).
    { rewrite <- (firstn_skipn 10). apply in_or_app. left. exact Hm. }
    apply in_flat_map in Hin. destruct Hin as [i [Hi Hmi]].
    apply in_seq in Hi. exists i.
    split; [lia|]. split; [lia|]. apply marker_at_cases. exact Hmi.
Qed.

Lemma markers_sound_witness :
  generateMarkersFromPrices ["a"; "b"]%string (map of_Z [3; 1]%Z) = [].
Proof.
  apply (proj1 (proj2 (markers_sound ["a"; "b"]%string (map of_Z [3; 1]%Z)))).
  simpl. lia.
Defined.

Lemma flat_map_all_nil (A B : Type) (f : A -> list B) (l : list A) :
  (forall x, In x l -> f x = []) -> flat_map f l = [].
Proof.
  induction l as [|x l IH]; intros H; simpl; [reflexivity|].
  rewrite (H x (or_introl eq_refl)). apply IH.
  intros y Hy. apply H. right. exact Hy.
Qed.

Lemma le_not_gt (x y : num) : (x <=? y)%num = true -> (y <? x)%num = false.
Proof.
  intros H. destruct (y <? x)%num eqn:E; [|reflexivity].
  apply lt_not_ge in E. congruence.
Qed.

(** A series that never decreases, or never increases, gets no marker. *)
Theorem monotone_series_no_markers :
  forall (labels : list string) (prices : list num),
    (forall i, (i + 1 < List.length prices)%nat ->
               (nth i prices NaN <=? nth (i + 1) prices NaN)%num = true)
    \/ (forall i, (i + 1 < List.length prices)%nat ->
                  (nth (i + 1) prices NaN <=? nth i prices NaN)%num = true) ->
    generateMarkersFromPrices labels prices = [].
Proof.
  intros labels prices Hmono. unfold generateMarkersFromPrices.
  rewrite flat_map_all_nil; [reflexivity|].
  intros i Hi. apply in_seq in Hi. unfold marker_at, gt. cbv zeta.
  assert (Hprev : (i - 1 + 1 = i)%nat) by lia.
  destruct Hmono as [Hup | Hdown].
  - pose proof (Hup (i - 1)%nat ltac:(lia)) as H1. rewrite Hprev in H1.
    pose proof (Hup i ltac:(lia)) as H2.
    rewrite (le_not_gt _ _ H1), (le_not_gt _ _ H2).
    cbn [andb]. rewrite andb_false_r. reflexivity.
  - pose proof (Hdown (i - 1)%nat ltac:(lia)) as H1. rewrite Hprev in H1.
    pose proof (Hdown i ltac:(lia)) as H2.
    rewrite (le_not_gt _ _ H1), (le_not_gt _ _ H2).
    cbn [andb]. rewrite andb_false_r. reflexivity.
Qed.

Lemma monotone_series_no_markers_witness :
  generateMarkersFromPrices ["a"; "b"; "c"; "d"]%string
                            (map of_Z [1; 2; 2; 5]%Z) = [].
Proof.
  apply monotone_series_no_markers. left.
  intros [|[|[|i]]] H; simpl in H; try lia; reflexivity.
Defined.

(** ** Per-period returns *)

Lemma pctReturns_from_length (rest : list EquityPoint) :
  forall prev, List.length (pctReturns_from prev rest) = List.length rest.
Proof.
  induction rest as [|e rest IH]; intros prev; simpl; [|rewrite IH];
    reflexivity.
Qed.

Lemma pctReturns_from_nth (rest : list EquityPoint) :
  forall prev i e,
    nth_error rest i = Some e ->
    nth_error (pctReturns_from prev rest) i
    = Some (e_total e
            / match i with
              | O => prev
              | S j => total_at rest j
              end - one)%num.
Proof.
  induction rest as [|e0 rest IH]; intros prev i e H.
  - destruct i; discriminate H.
  - destruct i as [|i]; simpl in *.
    + injection H as ->. reflexivity.
    + rewrite (IH (e_total e0) i e H). destruct i as [|i]; reflexivity.
Qed.

(** There is one return per pair of consecutive points: [N - 1] returns
    for [N] points, the [i]-th being
    [equity[i+1].total / equity[i].total - 1]. *)
Theorem pctReturns_entries :
  forall (equity : list EquityPoint),
    List.length (pctReturns equity) = (List.length equity - 1)%nat
    /\ forall i, (i + 1 < List.length equity)%nat ->
         nth_error (pctReturns equity) i
         = Some (total_at equity (i + 1) / total_at equity i - one)%num.
Proof.
  intros equity. destruct equity as [|e0 rest]; simpl.
  - split; [reflexivity|]. intros i H. lia.
  - split; [rewrite pctReturns_from_length; lia|].
    intros i H.
    destruct (nth_error rest i) as [e|] eqn:E.
    + rewrite (pctReturns_from_nth rest (e_total e0) i E).
      unfold total_at. rewrite Nat.add_1_r. simpl. rewrite E.
      destruct i as [|i]; reflexivity.
    + apply nth_error_None in E. lia.
Qed.

Lemma pctReturns_entries_witness :
  nth_error (pctReturns [mkEquityPoint "a" (of_Z 100);
                         mkEquityPoint "b" (of_Z 110)]) 0
  = Some (of_Z 110 / of_Z 100 - one)%num.
Proof.
  apply (proj2 (pctReturns_entries [mkEquityPoint "a" (of_Z 100);
                                    mkEquityPoint "b" (of_Z 110)]) 0%nat).
  simpl. lia.
Defined.

(** ** What a recorded trade does to the ledger *)

Lemma recorded_trade_inv (sl fe : num) (st : Portfolio) (s : Signal)
      (t : Trade) :
  trades (process_signal sl fe st s) = trades st ++ [t] ->
  let price := exec_price sl s in
  let fee := (price * fe)%num in
  (s_type s = buy /\ (cash st >? price)%num = true
   /\ (buy_qty (cash st) price fee <=? zero)%num = false
   /\ t = mkTrade buy (s_date s) price (buy_qty (cash st) price fee) fee
                  (cash st - (buy_qty (cash st) price fee * price + fee))%num
                  (position st + buy_qty (cash st) price fee)%num)
  \/ (s_type s = sell /\ (position st >? zero)%num = true
      /\ t = mkTrade sell (s_date s) price (position st) fee
                     (cash st + (position st * price - fee))%num
                     (position st - position st)%num).
Proof.
  unfold process_signal. cbv zeta.
  destruct (s_type s) eqn:Ty; cbn [Side_eqb andb].
  - destruct (cash st >? exec_price sl s)%num eqn:G.
    + destruct (buy_qty _ _ _ <=? zero)%num eqn:Q.
      * intros H. exfalso. apply (f_equal (@List.length _)) in H.
        rewrite length_app in H. simpl in H. lia.
      * cbn [trades]. intros H. apply app_inv_head in H.
        injection H as <-. left. auto.
    + cbn [trades]. intros H. exfalso. apply (f_equal (@List.length _)) in H.
      rewrite length_app in H. simpl in H. lia.
  - destruct (position st >? zero)%num eqn:G.
    + cbn [trades]. intros H. apply app_inv_head in H.
      injection H as <-. right. auto.
    + cbn [trades]. intros H. exfalso. apply (f_equal (@List.length _)) in H.
      rewrite length_app in H. simpl in H. lia.
Qed.

Lemma process_signal_recorded (sl fe : num) (st : Portfolio) (s : Signal)
      (t : Trade) :
  trades (process_signal sl fe st s) = trades st ++ [t] ->
  cash (process_signal sl fe st s) = t_cash t
  /\ position (process_signal sl fe st s) = t_position t
  /\ from_signal sl s t.
Proof.
  intros H. pose proof (@recorded_trade_inv sl fe st s t H) as Hinv.
  revert H. unfold process_signal. cbv zeta in *.
  destruct Hinv as [[Ty [G [Q ->]]] | [Ty [G ->]]]; rewrite Ty;
    cbn [Side_eqb andb]; rewrite G; [rewrite Q|]; intros _;
    cbn [cash position t_cash t_position]; unfold from_signal;
    cbn [t_type t_date t_price]; auto.
Qed.

(** ** The trade log as a whole *)

Lemma process_signal_step (sl fe : num) (st : Portfolio) (s : Signal) :
  (trades (process_signal sl fe st s) = trades st
   /\ cash (process_signal sl fe st s) = cash st
   /\ position (process_signal sl fe st s) = position st)
  \/ exists t, trades (process_signal sl fe st s) = trades st ++ [t].
Proof.
  unfold process_signal.
  destruct (Side_eqb (s_type s) buy && (cash st >? exec_price sl s)%num).
  - destruct (_ <=? zero)%num; [left; auto | right; eexists; reflexivity].
  - destruct (Side_eqb (s_type s) sell && (position st >? zero)%num);
      [right; eexists; reflexivity | left; auto].
Qed.

Lemma last_trade_snoc (l : list Trade) (t : Trade) :
  last_trade (l ++ [t]) = Some t.
Proof.
  unfold last_trade. rewrite length_app. simpl.
  replace (List.length l + 1 - 1)%nat with (List.length l) by lia.
  rewrite nth_error_app2 by lia. rewrite Nat.sub_diag. reflexivity.
Qed.

Lemma run_signals_synced (sl fe c0 : num) (signals : list Signal) :
  forall st,
    match last_trade (trades st) with
    | Some t => cash st = t_cash t /\ position st = t_position t
    | None => cash st = c0 /\ position st = zero
    end ->
    match last_trade (trades (run_signals sl fe st signals)) with
    | Some t => cash (run_signals sl fe st signals) = t_cash t
                /\ position (run_signals sl fe st signals) = t_position t
    | None => cash (run_signals sl fe st signals) = c0
              /\ position (run_signals sl fe st signals) = zero
    end.
Proof.
  induction signals as [|s signals IH]; intros st Hst; [exact Hst|].
  simpl. apply IH.
  destruct (process_signal_step sl fe st s) as [[Et [Ec Ep]] | [t Et]].
  - rewrite Et, Ec, Ep. exact Hst.
  - destruct (@process_signal_recorded sl fe st s t Et) as [Ec [Ep _]].
    rewrite Et, last_trade_snoc. auto.
Qed.

Lemma final_ledger_state (signals : list Signal) (prices : list num)
      (labels : list string) (c0 sl fe : num) :
  match last_trade (r_trades (simulatePortfolio signals prices labels
                                                c0 sl fe)) with
  | Some t =>
      r_finalCash (simulatePortfolio signals prices labels c0 sl fe)
      = t_cash t
      /\ r_position (simulatePortfolio signals prices labels c0 sl fe)
         = t_position t
  | None =>
      r_finalCash (simulatePortfolio signals prices labels c0 sl fe) = c0
      /\ r_position (simulatePortfolio signals prices labels c0 sl fe) = zero
  end.
Proof.
  unfold simulatePortfolio. cbn [r_trades r_finalCash r_position].
  apply run_signals_synced. simpl. auto.
Qed.

(** The final cash and position reported by the simulator are those
    recorded in the last trade of the log; with an empty log they are
    the starting cash and 0. *)
Theorem final_ledger_is_last_trade :
  forall (signals : list Signal) (prices : list num) (labels : list string)
         (c0 sl fe : num),
    let r := simulatePortfolio signals prices labels c0 sl fe in
    match last_trade (r_trades r) with
    | Some t => r_finalCash r = t_cash t /\ r_position r = t_position t
    | None => r_finalCash r = c0 /\ r_position r = zero
    end.
Proof.
  intros signals prices labels c0 sl fe r. subst r.
  apply final_ledger_state.
Qed.

Lemma sub_self_not_pos (x : num) : ((x - x) >? zero)%num = false.
Proof.
  destruct x; unfold gt, lt, sub, add, neg, zero; try reflexivity.
  qprop. lra.
Qed.

Lemma ends_sell_snoc (b : bool) (l : list Trade) (t : Trade) :
  ends_sell b (l ++ [t]) = Side_eqb (t_type t) sell.
Proof. unfold ends_sell. rewrite fold_left_app. reflexivity. Qed.

Lemma alternating_snoc (l : list Trade) (t : Trade) :
  forall b,
    alternating b (l ++ [t])
    = alternating b l
      && (Side_eqb (t_type t) buy || negb (ends_sell b l)).
Proof.
  induction l as [|t0 l IH]; intros b; simpl.
  - unfold ends_sell. simpl.
    destruct (t_type t); simpl;
      [reflexivity | rewrite andb_true_r; reflexivity].
  - unfold ends_sell in *. simpl. destruct (t_type t0); simpl.
    + apply IH.
    + rewrite IH, andb_assoc. reflexivity.
Qed.

Lemma run_signals_alternating (sl fe : num) (signals : list Signal) :
  forall st,
    alternating true (trades st) = true ->
    (ends_sell true (trades st) = true -> (position st >? zero)%num = false) ->
    alternating true (trades (run_signals sl fe st signals)) = true.
Proof.
  induction signals as [|s signals IH]; intros st Ha Hp; [exact Ha|].
  simpl. destruct (process_signal_step sl fe st s) as [[Et [_ Ep]] | [t Et]].
  - apply IH; rewrite Et; [exact Ha | rewrite Ep; exact Hp].
  - destruct (@process_signal_recorded sl fe st s t Et) as [_ [Ep _]].
    destruct (@recorded_trade_inv sl fe st s t Et)
      as [[_ [_ [_ E]]] | [_ [G E]]].
    + apply IH; rewrite Et.
      * rewrite alternating_snoc, Ha, E. reflexivity.
      * rewrite ends_sell_snoc, E. discriminate.
    + apply IH; rewrite Et.
      * rewrite alternating_snoc, Ha, E. cbn [t_type Side_eqb orb andb].
        destruct (ends_sell true (trades st)); [|reflexivity].
        rewrite Hp in G by reflexivity. discriminate G.
      * intros _. rewrite Ep, E. cbn [t_position]. apply sub_self_not_pos.
Qed.

(** In the log of the simulator the first trade is a Buy and no Sell
    directly follows another Sell. *)
Theorem trade_log_alternates :
  forall (signals : list Signal) (prices : list num) (labels : list string)
         (c0 sl fe : num),
    alternating true
      (r_trades (simulatePortfolio signals prices labels c0 sl fe)) = true.
Proof.
  intros. unfold simulatePortfolio. cbn [r_trades].
  apply run_signals_alternating; [reflexivity|].
  intros _. apply (sub_self_not_pos zero).
Qed.

Lemma run_signals_from_signals (sl fe : num) (signals : list Signal) :
  forall st,
    exists sub new,
      trades (run_signals sl fe st signals) = trades st ++ new
      /\ subseq sub signals
      /\ Forall2 (from_signal sl) sub new.
Proof.
  induction signals as [|s signals IH]; intros st.
  - exists [], []. rewrite app_nil_r. repeat split; constructor.
  - simpl. destruct (IH (process_signal sl fe st s)) as [sub [new [E [Hs Hf]]]].
    destruct (process_signal_step sl fe st s) as [[Et _] | [t Et]].
    + exists sub, new. rewrite E, Et. repeat split; trivial.
      constructor. exact Hs.
    + destruct (@process_signal_recorded sl fe st s t Et) as [_ [_ Hfs]].
      exists (s :: sub), (t :: new). rewrite E, Et, <- app_assoc.
      repeat split; constructor; assumption.
Qed.

(** Every trade of the log comes from a signal of its own, in the order
    of the signals, and carries that signal's side, date and
    slippage-adjusted price. *)
Theorem trades_follow_signals :
  forall (signals : list Signal) (prices : list num) (labels : list string)
         (c0 sl fe : num),
    exists sub,
      subseq sub signals
      /\ Forall2 (from_signal sl) sub
                 (r_trades (simulatePortfolio signals prices labels c0 sl fe)).
Proof.
  intros signals prices labels c0 sl fe.
  destruct (run_signals_from_signals sl fe signals (init_portfolio c0))
    as [sub [new [E [Hs Hf]]]].
  exists sub. split; [exact Hs|].
  unfold simulatePortfolio. cbn [r_trades].
  unfold run_signals in *. rewrite E. exact Hf.
Qed.

(** ** The warm-up of the crossover *)

Lemma sma_loop_null (prices : list num) (W : nat) (rest : list num) :
  forall i sum j,
    (i + j + 1 < W)%nat ->
    nth j (sma_loop prices W i rest sum) None = None.
Proof.
  induction rest as [|p rest IH]; intros i sum j H.
  - destruct j; reflexivity.
  - cbn [sma_loop]. destruct j as [|j]; cbn [nth].
    + replace (W <=? i + 1)%nat with false; [reflexivity|].
      symmetry. apply Nat.leb_gt. lia.
    + apply IH. lia.
Qed.

(** No signal is emitted before both windows have been filled one step
    earlier: every signal has an index of at least [fast] and at least
    [slow]; a series no longer than the larger window gives no signal. *)
Theorem signals_after_warmup :
  forall (labels : list string) (prices : list num) (fast slow : nat),
    let out := generateSmaSignals labels prices fast slow in
    (forall sg, In sg out ->
                (fast <= s_idx sg)%nat /\ (slow <= s_idx sg)%nat)
    /\ ((List.length prices <= Nat.max fast slow)%nat -> out = []).
Proof.
  intros labels prices fast slow out.
  assert (Hidx : forall sg, In sg out ->
            (s_idx sg < List.length prices)%nat
            /\ (fast <= s_idx sg)%nat /\ (slow <= s_idx sg)%nat).
  { intros sg Hsg. apply in_generateSmaSignals in Hsg.
    destruct Hsg as [Hi Hsg]. apply signal_at_emits in Hsg.
    destruct Hsg as [_ [G _]]. unfold guard in G.
    rewrite !andb_true_iff in G. destruct G as [[[Gf Gs] _] _].
    split; [lia|]. split.
    - destruct (Nat.le_gt_cases fast (s_idx sg)) as [L | L]; [exact L|].
      unfold at_, sma in Gf. rewrite sma_loop_null in Gf by lia.
      discriminate Gf.
    - destruct (Nat.le_gt_cases slow (s_idx sg)) as [L | L]; [exact L|].
      unfold at_, sma in Gs. rewrite sma_loop_null in Gs by lia.
      discriminate Gs. }
  split.
  - intros sg Hsg. apply (Hidx sg Hsg).
  - intros Hlen. destruct out as [|sg out'] eqn:E; [reflexivity|].
    destruct (Hidx sg (or_introl eq_refl)) as [H1 [H2 H3]]. lia.
Qed.

Lemma signals_after_warmup_witness :
  generateSmaSignals [] (map of_Z [10; 9; 8; 9]%Z) 2 4 = [].
Proof.
  apply (proj2 (signals_after_warmup [] (map of_Z [10; 9; 8; 9]%Z) 2 4)).
  simpl. lia.
Defined.

(** ** The pipeline: signals, trades, curve *)

Lemma subseq_Forall (A : Type) (P : A -> Prop) (sub l : list A) :
  subseq sub l -> Forall P l -> Forall P sub.
Proof.
  induction 1 as [|x sub l _ IH | x sub l _ IH]; intros Hall.
  - constructor.
  - inversion Hall; subst. constructor; auto.
  - inversion Hall; subst. auto.
Qed.

Lemma subseq_map (A B : Type) (f : A -> B) (sub l : list A) :
  subseq sub l -> subseq (map f sub) (map f l).
Proof.
  induction 1; simpl; constructor; assumption.
Qed.

Lemma subseq_sorted (sub l : list nat) :
  subseq sub l -> StronglySorted Nat.lt l -> StronglySorted Nat.lt sub.
Proof.
  induction 1 as [|x sub l Hsub IH | x sub l Hsub IH]; intros Hs.
  - constructor.
  - inversion Hs as [|? ? Hs' Hall]; subst.
    constructor; [apply IH, Hs'|]. apply (@subseq_Forall _ _ _ _ Hsub Hall).
  - inversion Hs; subst. auto.
Qed.

Lemma shift_dates (d : string) (ls : list string) (trs : list Trade)
      (idxs : list nat) :
  Forall2 (fun t i => t_date t = nth_error (d :: ls) i) trs idxs ->
  Forall (fun i => (1 <= i)%nat) idxs ->
  StronglySorted Nat.lt idxs ->
  Forall (fun i => (i < S (List.length ls))%nat) idxs ->
  Forall2 (fun t i => t_date t = nth_error ls i) trs (map pred idxs)
  /\ StronglySorted Nat.lt (map pred idxs)
  /\ Forall (fun i => (i < List.length ls)%nat) (map pred idxs).
Proof.
  induction 1 as [|t i trs idxs Ht _ IH]; intros Hge Hs Hb; simpl.
  - repeat split; constructor.
  - inversion Hge as [|? ? Hi Hge']; subst.
    inversion Hs as [|? ? Hs' Hlt]; subst.
    inversion Hb as [|? ? Hbi Hb']; subst.
    destruct (IH Hge' Hs' Hb') as [H1 [H2 H3]].
    destruct i as [|i]; [lia|]. simpl in *.
    split; [constructor; assumption|]. split; [|constructor; [lia | exact H3]].
    constructor; [exact H2|].
    apply Forall_map. rewrite Forall_forall in *.
    intros j Hj. specialize (Hlt j Hj). specialize (Hge' j Hj). simpl. lia.
Qed.

(** Trades dated with labels of strictly increasing positions follow the
    order of the labels. *)
Lemma aligned_of_sorted (labels : list string) :
  forall (trs : list Trade) (idxs : list nat),
    Forall2 (fun t i => t_date t = nth_error labels i) trs idxs ->
    StronglySorted Nat.lt idxs ->
    Forall (fun i => (i < List.length labels)%nat) idxs ->
    aligned trs labels.
Proof.
  induction labels as [|d ls IH]; intros trs idxs Hd Hs Hb.
  - destruct Hd as [|t i trs idxs _ _]; [constructor|].
    inversion Hb; subst. simpl in *. lia.
  - destruct Hd as [|t i trs idxs Ht Hd]; [constructor|].
    inversion Hs as [|? ? Hs' Hlt]; subst.
    inversion Hb as [|? ? Hbi Hb']; subst. simpl in Hbi.
    destruct i as [|i].
    + simpl in Ht. apply aligned_here; [exact Ht|]. apply aligned_next.
      assert (Hge : Forall (fun j => (1 <= j)%nat) idxs).
      { eapply Forall_impl; [|exact Hlt]. simpl. intros; lia. }
      destruct (@shift_dates d ls trs idxs Hd Hge Hs' Hb') as [H1 [H2 H3]].
      apply (IH trs (map pred idxs)); assumption.
    + apply aligned_next.
      assert (Hge : Forall (fun j => (1 <= j)%nat) (S i :: idxs)).
      { constructor; [lia|]. eapply Forall_impl; [|exact Hlt].
        simpl. intros; lia. }
      destruct (@shift_dates d ls (t :: trs) (S i :: idxs)
                  ltac:(constructor; assumption) Hge Hs Hb) as [H1 [H2 H3]].
      apply (IH (t :: trs) (map pred (S i :: idxs))); assumption.
Qed.

Lemma generateSmaSignals_dated (labels : list string) (prices : list num)
      (fast slow : nat) :
  let out := generateSmaSignals labels prices fast slow in
  StronglySorted Nat.lt (map s_idx out)
  /\ Forall (fun sg => s_date sg = nth_error labels (s_idx sg)
                       /\ (s_idx sg < List.length prices)%nat) out.
Proof.
  intros out. split.
  - apply signals_sorted_from.
    + intros i sg Hsg. apply signal_at_emits in Hsg.
      destruct Hsg as [E _]. rewrite E. reflexivity.
    + intros i. apply signal_at_length.
  - apply Forall_forall. intros sg Hsg. apply in_generateSmaSignals in Hsg.
    destruct Hsg as [Hi Hsg]. apply signal_at_emits in Hsg.
    destruct Hsg as [E _]. split; [|lia].
    rewrite E at 1. reflexivity.
Qed.

(** The log that the simulator makes of the crossover signals follows
    the order of the labels, provided every price has a label. *)
Lemma pipeline_aligned (labels : list string) (prices : list num)
      (fast slow : nat) (c0 sl fe : num) :
  (List.length prices <= List.length labels)%nat ->
  aligned (r_trades (simulatePortfolio
                       (generateSmaSignals labels prices fast slow)
                       prices labels c0 sl fe))
          labels.
Proof.
  intros Hlen.
  destruct (generateSmaSignals_dated labels prices fast slow) as [Hs Hd].
  unfold simulatePortfolio. cbn [r_trades].
  destruct (run_signals_from_signals sl fe
              (generateSmaSignals labels prices fast slow)
              (init_portfolio c0)) as [sub [new [E [Hsub Hf]]]].
  unfold run_signals in *. rewrite E. cbn [init_portfolio trades app].
  pose proof (@subseq_Forall _ _ _ _ Hsub Hd) as Hd'.
  apply (@aligned_of_sorted labels new (map s_idx sub)).
  - clear E Hsub. induction Hf as [|s t sub new Hst _ IH]; simpl.
    + constructor.
    + inversion Hd' as [|? ? [Hdate _] Hd'']; subst.
      constructor; [|apply IH; exact Hd''].
      destruct Hst as [_ [Edate _]]. rewrite Edate. exact Hdate.
  - apply (@subseq_sorted _ _ (@subseq_map _ _ s_idx _ _ Hsub) Hs).
  - apply Forall_map. eapply Forall_impl; [|exact Hd']. simpl.
    intros sg [_ H]. lia.
Qed.

(** With distinct labels, one for every price, the curve of the
    pipeline applies every trade at exactly its own timestamp. *)
Theorem pipeline_curve_by_timestamp :
  forall (labels : list string) (prices : list num) (fast slow : nat)
         (c0 sl fe : num),
    NoDup labels ->
    (List.length prices <= List.length labels)%nat ->
    let signals := generateSmaSignals labels prices fast slow in
    let r := simulatePortfolio signals prices labels c0 sl fe in
    computeEquityCurve (r_trades r) prices labels (r_startingCash r)
    = equity_by_timestamp (r_trades r) prices labels 0 (c0, zero).
Proof.
  intros labels prices fast slow c0 sl fe Hnd Hlen signals r.
  unfold computeEquityCurve.
  apply (@equity_loop_by_timestamp (r_trades r) prices labels []
                                   (r_trades r) 0 (init_replay c0));
    trivial.
  apply pipeline_aligned. exact Hlen.
Qed.

Lemma demo_labels_NoDup : NoDup demo_labels.
Proof.
  unfold demo_labels.
  repeat (constructor; [simpl; intuition discriminate|]). constructor.
Qed.

Lemma pipeline_curve_by_timestamp_witness :
  computeEquityCurve
    (r_trades (simulatePortfolio
                 (generateSmaSignals demo_labels demo_prices 2 4)
                 demo_prices demo_labels (of_Z 1000)
                 default_slippagePct default_feePct))
    demo_prices demo_labels (of_Z 1000)
  = equity_by_timestamp
      (r_trades (simulatePortfolio
                   (generateSmaSignals demo_labels demo_prices 2 4)
                   demo_prices demo_labels (of_Z 1000)
                   default_slippagePct default_feePct))
      demo_prices demo_labels 0 (of_Z 1000, zero).
Proof.
  apply (@pipeline_curve_by_timestamp demo_labels demo_prices 2 4 (of_Z 1000)
           default_slippagePct default_feePct demo_labels_NoDup).
  simpl. lia.
Defined.

Lemma last_ledger_last (trs : list Trade) (cp : num * num) :
  last_ledger trs cp
  = match last_trade trs with
    | Some t => (t_cash t, t_position t)
    | None => cp
    end.
Proof.
  destruct trs as [|t0 trs] using rev_ind; [reflexivity|].
  unfold last_ledger. rewrite fold_left_app, last_trade_snoc. reflexivity.
Qed.

Lemma last_ledger_app (pre post : list Trade) (cp : num * num) :
  last_ledger (pre ++ post) cp = last_ledger post (last_ledger pre cp).
Proof. unfold last_ledger. apply fold_left_app. Qed.

(** With distinct labels and a log that follows their order, the replay
    consumes the whole log. *)
Lemma replay_after_aligned (trs : list Trade) :
  forall (ls : list string) (done rest : list Trade) (st : Replay),
    trs = done ++ rest ->
    rp_tradeIndex st = List.length done ->
    NoDup ls ->
    aligned rest ls ->
    replay_after trs ls st
    = mkReplay (fst (last_ledger rest (rp_cash st, rp_position st)))
               (snd (last_ledger rest (rp_cash st, rp_position st)))
               (List.length trs).
Proof.
  induction ls as [|d ls IH]; intros done rest st E Hix Hnd Hal.
  - inversion Hal; subst. unfold replay_after. simpl.
    rewrite app_nil_r, <- Hix. destruct st; reflexivity.
  - destruct (aligned_split Hal) as [pre [post [Er [Hpre Hpost]]]].
    inversion Hnd as [|? ? Hnotin Hnd']; subst.
    assert (Hpost_d : Forall (fun t => t_date t <> Some d) post).
    { eapply Forall_impl; [|exact (aligned_dates Hpost)]. simpl.
      intros t [d' [E' Hin]] Ed. rewrite E' in Ed. injection Ed as ->.
      contradiction. }
    assert (Hstep : replay_step (done ++ pre ++ post) st d
                    = mkReplay
                        (fst (last_ledger pre (rp_cash st, rp_position st)))
                        (snd (last_ledger pre (rp_cash st, rp_position st)))
                        (rp_tradeIndex st + List.length pre)).
    { unfold replay_step.
      replace (skipn (rp_tradeIndex st) (done ++ pre ++ post))
        with (pre ++ post)
        by (rewrite Hix, skipn_app, Nat.sub_diag, skipn_all; reflexivity).
      apply apply_trades_run; [exact Hpre|].
      intros t Ht. destruct post as [|t' post]; [discriminate|].
      injection Ht as ->. inversion Hpost_d; assumption. }
    unfold replay_after in *. cbn [fold_left]. rewrite Hstep.
    rewrite (IH (done ++ pre) post); trivial.
    + cbn [rp_cash rp_position]. rewrite <- surjective_pairing.
      rewrite last_ledger_app. reflexivity.
    + rewrite <- app_assoc. reflexivity.
    + cbn [rp_tradeIndex]. rewrite length_app. lia.
Qed.

(** With distinct labels, as many as prices, and a last price that is a
    non-zero number, the last point of the pipeline's curve is worth
    exactly the portfolio value that the simulator reports. *)
Theorem curve_ends_at_portfolio_value :
  forall (labels : list string) (prices : list num) (fast slow : nat)
         (c0 sl fe p : num),
    NoDup labels ->
    List.length labels = List.length prices ->
    last_elt prices = Some p -> truthy p = true ->
    let signals := generateSmaSignals labels prices fast slow in
    let r := simulatePortfolio signals prices labels c0 sl fe in
    let curve := computeEquityCurve (r_trades r) prices labels
                                    (r_startingCash r) in
    exists e, nth_error curve (List.length labels - 1) = Some e
              /\ e_total e = r_portfolioValue r.
Proof.
  intros labels prices fast slow c0 sl fe p Hnd Hlen Hlast Hp signals r curve.
  assert (Hne : (1 <= List.length labels)%nat).
  { rewrite Hlen. unfold last_elt in Hlast.
    destruct prices; [discriminate Hlast | simpl; lia]. }
  destruct (nth_error labels (List.length labels - 1)) as [date|] eqn:Ed;
    [|apply nth_error_None in Ed; lia].
  eexists. split.
  - unfold curve, computeEquityCurve.
    apply (@equity_loop_nth (r_trades r) prices labels _ 0
                            (init_replay (r_startingCash r)) date Ed).
  - cbv zeta. cbn [e_total].
    replace (S (List.length labels - 1)) with (List.length labels) by lia.
    rewrite firstn_all.
    rewrite (@replay_after_aligned (r_trades r) labels [] (r_trades r));
      trivial; [|apply pipeline_aligned; lia].
    cbn [rp_cash rp_position init_replay r_startingCash].
    rewrite last_ledger_last.
    pose proof (final_ledger_state signals prices labels c0 sl fe) as Hfin.
    fold r in Hfin.
    assert (Hmark : mark_price prices (0 + (List.length labels - 1)) = p).
    { unfold mark_price. simpl (0 + _)%nat. rewrite Hlen.
      unfold last_elt in Hlast. rewrite Hlast. cbn [or_else].
      rewrite Hp. reflexivity. }
    rewrite Hmark.
    assert (Hpv : r_portfolioValue r
                  = (r_finalCash r + r_position r * p)%num).
    { unfold r, simulatePortfolio.
      cbn [r_portfolioValue r_finalCash r_position].
      rewrite Hlast. cbn [or_else]. rewrite Hp. reflexivity. }
    rewrite Hpv.
    destruct (last_trade (r_trades r)) as [t|]; destruct Hfin as [-> ->];
      reflexivity.
Qed.

Lemma curve_ends_at_portfolio_value_witness :
  exists e,
    nth_error
      (computeEquityCurve
         (r_trades (simulatePortfolio
                      (generateSmaSignals demo_labels demo_prices 2 4)
                      demo_prices demo_labels (of_Z 1000)
                      default_slippagePct default_feePct))
         demo_prices demo_labels (of_Z 1000)) 9
    = Some e
    /\ e_total e
       = r_portfolioValue
           (simulatePortfolio (generateSmaSignals demo_labels demo_prices 2 4)
                              demo_prices demo_labels (of_Z 1000)
                              default_slippagePct default_feePct).
Proof.
  exact (@curve_ends_at_portfolio_value demo_labels demo_prices 2 4
           (of_Z 1000) default_slippagePct default_feePct (of_Z 7)
           demo_labels_NoDup eq_refl eq_refl eq_refl).
Defined.

(** ** A curve without trades *)

Lemma mark_price_fin (qs : list Q) (i : nat) :
  exists m : Q, mark_price (map Fin qs) i = Fin m.
Proof.
  unfold mark_price, last_elt.
  assert (Hn : forall k, nth_error (map Fin qs) k = None
                         \/ exists q, nth_error (map Fin qs) k = Some (Fin q)).
  { intros k. rewrite nth_error_map.
    destruct (nth_error qs k) as [q|]; [right; exists q | left]; reflexivity. }
  assert (Hor : forall k d,
             (exists m, d = Fin m) ->
             exists m, or_else (nth_error (map Fin qs) k) d = Fin m).
  { intros k d [m ->]. destruct (Hn k) as [-> | [q ->]]; simpl.
    - exists m. reflexivity.
    - destruct (negb (Qeq_bool q 0)); eexists; reflexivity. }
  apply Hor. apply Hor. exists 0%Q. reflexivity.
Qed.

Lemma equity_loop_no_trades (qs : list Q) (labels : list string) (c : Q) :
  forall i k,
    Forall (fun e => fin_eq c (e_total e))
           (equity_loop [] (map Fin qs) labels i (mkReplay (Fin c) zero k)).
Proof.
  induction labels as [|d labels IH]; intros i k; simpl.
  - constructor.
  - unfold replay_step. rewrite skipn_nil. cbn [apply_trades].
    constructor; [|apply IH].
    cbn [e_total rp_cash rp_position].
    destruct (mark_price_fin qs i) as [m ->].
    exists (c + 0 * m)%Q. split; [reflexivity | ring].
Qed.

Lemma pctReturns_from_const (c : Q) (rest : list EquityPoint) :
  ~ (c == 0)%Q ->
  Forall (fun e => fin_eq c (e_total e)) rest ->
  forall prev, fin_eq c prev ->
               Forall (fin_eq 0) (pctReturns_from prev rest).
Proof.
  intros Hc. induction 1 as [|e rest [a [Ea Ha]] _ IH];
    intros prev [b [-> Hb]]; simpl.
  - constructor.
  - constructor; [|apply IH; exists a; auto].
    rewrite Ea. exists (a / b - 1)%Q. split.
    + unfold sub, div, one, add, neg.
      replace (Qeq_bool b 0) with false; [reflexivity|].
      symmetry. apply Qeq_bool_false. rewrite Hb. exact Hc.
    + rewrite Ha, Hb. field. exact Hc.
Qed.

Section FlatCurve.

Variable pow : num -> num -> num.
Variable sqrt : num -> num.

Hypothesis sqrt_zero :
  forall q : Q, (q == 0)%Q -> (sqrt (Fin q) === zero)%num = true.
Hypothesis pow_zero_two :
  forall q : Q, (q == 0)%Q -> fin_eq 0 (pow (Fin q) (of_Z 2)).

(** With an empty trade log, finite prices and a finite non-zero
    starting cash, every point of the curve is worth the starting cash,
    every return is 0 and the Sharpe ratio is 0. *)
Theorem no_trades_flat_curve :
  forall (qs : list Q) (labels : list string) (c0 : Q) (rf : num),
    ~ (c0 == 0)%Q ->
    let curve := computeEquityCurve [] (map Fin qs) labels (Fin c0) in
    Forall (fun e => fin_eq c0 (e_total e)) curve
    /\ Forall (fin_eq 0) (pctReturns curve)
    /\ sharpe pow sqrt (pctReturns curve) rf = zero.
Proof.
  intros qs labels c0 rf Hc curve.
  assert (Hflat : Forall (fun e => fin_eq c0 (e_total e)) curve).
  { apply equity_loop_no_trades. }
  assert (Hret : Forall (fin_eq 0) (pctReturns curve)).
  { unfold pctReturns. destruct Hflat as [|e rest He Hrest]; [constructor|].
    apply (pctReturns_from_const Hc Hrest He). }
  split; [exact Hflat|]. split; [exact Hret|].
  destruct (pctReturns curve) as [|x returns] eqn:E; [reflexivity|].
  apply (@sharpe_zero_std pow sqrt).
  apply (@pop_std_identical pow sqrt sqrt_zero pow_zero_two 0);
    [simpl; lia | exact Hret].
Qed.

End FlatCurve.

Lemma no_trades_flat_curve_witness :
  sharpe pow_int sqrt_floor
         (pctReturns (computeEquityCurve [] (map Fin [10; 11; 12]%Q)
                                         ["a"; "b"; "c"]%string (Fin 100)))
         zero
  = zero.
Proof.
  refine (proj2 (proj2 (@no_trades_flat_curve pow_int sqrt_floor
                          sqrt_floor_zero pow_int_zero_two
                          [10; 11; 12]%Q ["a"; "b"; "c"]%string 100 zero _))).
  discriminate.
Defined.

(** ** The annualisation of [cagr] *)

Section Cagr.

Variable pow : num -> num -> num.

(** On a curve of [n >= 2] points the growth [end / start] is raised to
    the power [1 / (n / 252)]: the number of points, not the number of
    periods, is taken for the length in trading days, and the floor of
    [1/252] years never applies, [n / 252] being above it. *)
Theorem cagr_exponent :
  forall (equity : list EquityPoint),
    (2 <= List.length equity)%nat ->
    let n := of_nat (List.length equity) in
    (one / of_Z 252 <? n / of_Z 252)%num = true
    /\ cagr pow equity
       = (pow (total_at equity (List.length equity - 1) / total_at equity 0)
              (one / (n / of_Z 252)) - one)%num.
Proof.
  intros equity Hn n. unfold cagr.
  replace (List.length equity <? 2)%nat with false
    by (symmetry; apply Nat.ltb_ge; exact Hn).
  fold n.
  set (k := inject_Z (Z.of_nat (List.length equity))).
  assert (Hpos : (2 <= k)%Q).
  { unfold k. rewrite <- (Zle_Qle 2). lia. }
  assert (Ey : (n / of_Z 252)%num = Fin (k / inject_Z 252)).
  { unfold n, of_nat, of_Z. fold k. apply div_fin_pos. reflexivity. }
  assert (E1 : (one / of_Z 252)%num = Fin (1 / inject_Z 252)).
  { unfold one, of_Z. apply div_fin_pos. reflexivity. }
  assert (Hlt : (1 / inject_Z 252 < k / inject_Z 252)%Q).
  { apply Qlt_shift_div_l; [reflexivity|].
    assert (E : (1 / inject_Z 252 * inject_Z 252 == 1)%Q) by reflexivity.
    rewrite E. lra. }
  split.
  - rewrite Ey, E1. unfold lt. apply Qlt_bool_iff. exact Hlt.
  - rewrite Ey, E1. unfold max, le.
    replace (Qle_bool (k / inject_Z 252) (1 / inject_Z 252)) with false;
      [reflexivity|].
    symmetry. apply Qle_bool_false. exact Hlt.
Qed.

End Cagr.

Lemma cagr_exponent_witness :
  cagr pow_int [mkEquityPoint "a" (of_Z 100); mkEquityPoint "b" (of_Z 110)]
  = (pow_int (of_Z 110 / of_Z 100) (one / (of_nat 2 / of_Z 252)) - one)%num.
Proof.
  refine (proj2 (@cagr_exponent pow_int
            [mkEquityPoint "a" (of_Z 100); mkEquityPoint "b" (of_Z 110)] _)).
  simpl. lia.
Defined.

(** ** The response cache *)

Section CacheProperties.

Variable Data : Type.
Variable data_truthy : Data -> bool.

(** A value stored with a time to live is read back until the time to
    live has passed, leaving the cache as it is; storing under one key
    changes no other key. *)
Theorem cache_read_back :
  forall (cache : Cache Data) (key : string) (d : Data) (ttlSec t0 t1 : Z),
    (t1 <= t0 + ttlSec * 1000)%Z ->
    getCache (setCache cache key d ttlSec t0) key t1
    = (Some d, setCache cache key d ttlSec t0)
    /\ forall k, k <> key -> setCache cache key d ttlSec t0 k = cache k.
Proof.
  intros cache key d ttlSec t0 t1 H. split.
  - unfold getCache, setCache. rewrite String.eqb_refl. cbn [expires data].
    replace (t1 >? t0 + ttlSec * 1000)%Z with false; [reflexivity|].
    symmetry. rewrite Z.gtb_ltb. apply Z.ltb_ge. exact H.
  - intros k Hk. unfold setCache.
    apply String.eqb_neq in Hk. rewrite Hk. reflexivity.
Qed.

(** Once the time to live has passed, the lookup returns [null] and
    removes the entry, so that every later lookup of the key returns
    [null] too; the other keys keep their entries. *)
Theorem cache_expiry :
  forall (cache : Cache Data) (key : string) (d : Data) (ttlSec t0 t1 : Z),
    (t0 + ttlSec * 1000 < t1)%Z ->
    let r := getCache (setCache cache key d ttlSec t0) key t1 in
    fst r = None
    /\ snd r key = None
    /\ (forall t, fst (getCache (snd r) key t) = None)
    /\ forall k, k <> key -> snd r k = cache k.
Proof.
  intros cache key d ttlSec t0 t1 H r.
  assert (E : r = (None, delete_key (setCache cache key d ttlSec t0) key)).
  { subst r. unfold getCache, setCache at 1. rewrite String.eqb_refl.
    cbn [expires data].
    replace (t1 >? t0 + ttlSec * 1000)%Z with true; [reflexivity|].
    symmetry. rewrite Z.gtb_ltb. apply Z.ltb_lt. exact H. }
  rewrite E. cbn [fst snd]. split; [reflexivity|].
  split; [unfold delete_key; rewrite String.eqb_refl; reflexivity|].
  split.
  - intros t. unfold getCache, delete_key. rewrite String.eqb_refl.
    reflexivity.
  - intros k Hk. apply String.eqb_neq in Hk.
    unfold delete_key, setCache. rewrite Hk. reflexivity.
Qed.

Lemma getCache_after_set (cache : Cache Data) (key : string) (d : Data)
      (ttl t0 t : Z) :
  getCache (setCache cache key d ttl t0) key t
  = if (t >? t0 + ttl * 1000)%Z
    then (None, delete_key (setCache cache key d ttl t0) key)
    else (Some d, setCache cache key d ttl t0).
Proof.
  unfold getCache, setCache at 1. rewrite String.eqb_refl. reflexivity.
Qed.

(** [fetchWithCache] either calls [fetch], returns its response and
    stores it under the key with the given time to live, or it returns,
    without calling [fetch] and without touching the cache, the truthy
    value of an entry that has not passed its expiry. *)
Theorem fetchWithCache_result :
  forall (cache : Cache Data) (key : string) (response : Data)
         (ttl now now' : Z),
    let r := fetchWithCache data_truthy cache key response ttl now now' in
    if snd r
    then fst (fst r) = response
         /\ snd (fst r) key = Some (mkEntry (now' + ttl * 1000) response)
    else exists e, cache key = Some e /\ (now <= expires e)%Z
                   /\ fst (fst r) = data e
                   /\ data_truthy (data e) = true
                   /\ snd (fst r) = cache.
Proof.
  intros cache key response ttl now now' r. subst r.
  unfold fetchWithCache, getCache.
  destruct (cache key) as [e|] eqn:E.
  - destruct (now >? expires e)%Z eqn:G.
    + cbn [fst snd]. split; [reflexivity|].
      unfold setCache. rewrite String.eqb_refl. reflexivity.
    + destruct (data_truthy (data e)) eqn:T; cbn [fst snd].
      * exists e. rewrite Z.gtb_ltb in G. apply Z.ltb_ge in G. auto.
      * split; [reflexivity|].
        unfold setCache. rewrite String.eqb_refl. reflexivity.
  - cbn [fst snd]. split; [reflexivity|].
    unfold setCache. rewrite String.eqb_refl. reflexivity.
Qed.

Lemma fetchWithCache_fetched (cache : Cache Data) (key : string)
      (response : Data) (ttl now now' : Z) :
  snd (fetchWithCache data_truthy cache key response ttl now now') = true ->
  exists c1,
    fetchWithCache data_truthy cache key response ttl now now'
    = (response, setCache c1 key response ttl now', true).
Proof.
  unfold fetchWithCache.
  destruct (getCache cache key now) as [[d|] c1].
  - destruct (data_truthy d); [discriminate|].
    intros _. exists c1. reflexivity.
  - intros _. exists c1. reflexivity.
Qed.

(** After a call that fetched a truthy response, every call for the same
    key made before the time to live has passed returns that response
    without calling [fetch] and leaves the cache as it is, whatever the
    upstream would answer now. *)
Theorem fetchWithCache_reuse :
  forall (cache : Cache Data) (key : string) (r1 r2 : Data)
         (ttl ttl2 now now' t t' : Z),
    let first := fetchWithCache data_truthy cache key r1 ttl now now' in
    snd first = true ->
    data_truthy r1 = true ->
    (t <= now' + ttl * 1000)%Z ->
    fetchWithCache data_truthy (snd (fst first)) key r2 ttl2 t t'
    = (r1, snd (fst first), false).
Proof.
  intros cache key r1 r2 ttl ttl2 now now' t t' first Hf Ht Hle.
  destruct (fetchWithCache_fetched cache key r1 ttl now now' Hf) as [c1 E].
  subst first. rewrite E. cbn [fst snd].
  unfold fetchWithCache. rewrite getCache_after_set.
  replace (t >? now' + ttl * 1000)%Z with false
    by (symmetry; rewrite Z.gtb_ltb; apply Z.ltb_ge; exact Hle).
  rewrite Ht. reflexivity.
Qed.

(** A falsy response ([null], [0], [false] or the empty string) is
    stored but never served, and an entry past its time to live is not
    served either: the next call for the key fetches again. *)
Theorem fetchWithCache_refetch :
  forall (cache : Cache Data) (key : string) (r1 r2 : Data)
         (ttl ttl2 now now' t t' : Z),
    let first := fetchWithCache data_truthy cache key r1 ttl now now' in
    snd first = true ->
    data_truthy r1 = false \/ (now' + ttl * 1000 < t)%Z ->
    let second :=
      fetchWithCache data_truthy (snd (fst first)) key r2 ttl2 t t' in
    fst (fst second) = r2 /\ snd second = true.
Proof.
  intros cache key r1 r2 ttl ttl2 now now' t t' first Hf Hor second.
  destruct (fetchWithCache_fetched cache key r1 ttl now now' Hf) as [c1 E].
  subst second first. rewrite E. cbn [fst snd].
  unfold fetchWithCache. rewrite getCache_after_set.
  destruct (t >? now' + ttl * 1000)%Z eqn:G.
  - split; reflexivity.
  - destruct Hor as [Hfalse | Hlt].
    + rewrite Hfalse. split; reflexivity.
    + rewrite Z.gtb_ltb in G. apply Z.ltb_ge in G. lia.
Qed.

End CacheProperties.

Lemma cache_read_back_witness :
  fst (getCache (setCache (@empty_cache Z) "k" 7%Z 30 1000) "k" 31000)
  = Some 7%Z.
Proof.
  rewrite (proj1 (@cache_read_back Z (@empty_cache Z) "k"%string 7%Z 30 1000
                    31000 ltac:(lia))).
  reflexivity.
Defined.

Lemma cache_expiry_witness :
  fst (getCache (setCache (@empty_cache Z) "k" 7%Z 30 1000) "k" 31001) = None.
Proof.
  apply (@cache_expiry Z (@empty_cache Z) "k"%string 7%Z 30 1000 31001).
  lia.
Defined.

Lemma fetchWithCache_result_witness :
  fst (fst (fetchWithCache Z_truthy (@empty_cache Z) "k" 7%Z 30 1000 1005))
  = 7%Z.
Proof.
  exact (proj1 (@fetchWithCache_result Z Z_truthy (@empty_cache Z) "k"%string
                  7%Z 30 1000 1005)).
Defined.

Lemma fetchWithCache_reuse_witness :
  fetchWithCache Z_truthy
    (snd (fst (fetchWithCache Z_truthy (@empty_cache Z) "k" 7%Z 30 1000 1005)))
    "k" 8%Z 30 20000 20005
  = (7%Z,
     snd (fst (fetchWithCache Z_truthy (@empty_cache Z) "k" 7%Z 30 1000 1005)),
     false).
Proof.
  apply (@fetchWithCache_reuse Z Z_truthy (@empty_cache Z) "k"%string 7%Z 8%Z
           30 30 1000 1005 20000 20005 eq_refl eq_refl).
  lia.
Defined.

Lemma fetchWithCache_refetch_witness :
  snd (fetchWithCache Z_truthy
         (snd (fst (fetchWithCache Z_truthy (@empty_cache Z) "k" 0%Z 30
                                   1000 1005)))
         "k" 8%Z 30 2000 2005)
  = true.
Proof.
  apply (@fetchWithCache_refetch Z Z_truthy (@empty_cache Z) "k"%string
           0%Z 8%Z 30 30 1000 1005 2000 2005 eq_refl).
  left. reflexivity.
Defined.

(** ** One signal per index *)

(** No index gets both a Buy and a Sell, and no index gets two signals. *)
Theorem one_signal_per_index :
  forall (labels : list string) (prices : list num) (fast slow : nat),
    let out := generateSmaSignals labels prices fast slow in
    (forall i, ~ (emits buy i out /\ emits sell i out))
    /\ NoDup (map s_idx out).
Proof.
  intros labels prices fast slow out. split.
  - intros i [Hb Hs]. unfold out in *.
    apply emits_iff in Hb. apply emits_iff in Hs.
    destruct Hb as [_ [_ Hu]]. destruct Hs as [_ [_ Hd]].
    rewrite (crosses_excl _ _ _ Hu) in Hd. discriminate Hd.
  - destruct (generateSmaSignals_dated labels prices fast slow) as [Hs _].
    fold out in Hs. clear - Hs.
    induction Hs as [|i l Hs IH Hall]; constructor; [|exact IH].
    intros Hin. rewrite Forall_forall in Hall.
    specialize (Hall i Hin). unfold Nat.lt in Hall. lia.
Qed.
